(** * qcodes: [utils/threading_utils.py] and [dataset/linked_datasets/links.py]

    A shallow embedding of [RespondingThread], [thread_map] and [Link],
    and the properties of the specification checked against them.

    Python objects are modelled by a small universe [pyobj] in which
    [PyNone] is Python's [None]; exception objects by [pyexc], which
    records the two facts the source inspects: whether the object is an
    instance of [Exception] (the class [run] catches) and its truth value
    (what [output] tests with [if self._exception:]).  A callable is
    modelled by the outcome of calling it on its arguments: it returns a
    value or raises. *)

From Stdlib Require Import ZArith NArith Ascii String Lia.
From stdpp Require Import base option list strings.

Open Scope string_scope.

(** ** Python values *)

Inductive pyobj : Type :=
  | PyNone
  | PyBool (b : bool)
  | PyInt (n : Z)
  | PyStr (s : string).

(** An exception object.  [exc_kind] is the name of its class and
    [exc_msg] its message; [exc_is_Exception] says whether the class
    derives from [Exception] ([SystemExit], [KeyboardInterrupt] and
    [GeneratorExit] derive from [BaseException] only); [exc_truthy] is
    [bool(e)], true unless the class defines [__bool__] or [__len__]. *)
Record pyexc : Type := mkExc {
  exc_kind : string;
  exc_msg : string;
  exc_is_Exception : bool;
  exc_truthy : bool
}.

(** What a call does: [return v] or [raise e]. *)
Inductive outcome (A : Type) : Type :=
  | Returns (v : A)
  | Raises (e : pyexc).
Arguments Returns {A} v.
Arguments Raises {A} e.

(** Keyword arguments: a [dict[str, Any]], in insertion order. *)
Definition kwdict : Type := list (string * pyobj).

(** [Callable[..., T]]: the result of [target( *args, **kwargs)]. *)
Definition Callable : Type := list pyobj -> kwdict -> outcome pyobj.

(** ** [threading.Thread] life cycle *)

Inductive lifecycle : Type :=
  | NotStarted   (* constructed, [start] not called yet *)
  | Running      (* [start] called, [run] has not finished *)
  | Finished.    (* [run] has finished, [join] returns *)

(** ** [class RespondingThread] *)

Record RespondingThread : Type := mkRespondingThread {
  _target : Callable;
  _args : list pyobj;
  _kwargs : kwdict;
  _exception : option pyexc;
  _output : pyobj;
  life : lifecycle
}.

Definition set_exception (x : option pyexc) (t : RespondingThread) : RespondingThread :=
  mkRespondingThread (_target t) (_args t) (_kwargs t) x (_output t) (life t).

Definition set_output (v : pyobj) (t : RespondingThread) : RespondingThread :=
  mkRespondingThread (_target t) (_args t) (_kwargs t) (_exception t) v (life t).

Definition set_life (s : lifecycle) (t : RespondingThread) : RespondingThread :=
  mkRespondingThread (_target t) (_args t) (_kwargs t) (_exception t) (_output t) s.

(** [RespondingThread.__init__]: [kwargs] defaults to [{}]; both slots
    start out as [None]; nothing is executed. *)
Definition __init__ (target : Callable) (args : list pyobj) (kwargs : option kwdict)
  : RespondingThread :=
  let kwargs := match kwargs with None => [] | Some k => k end in
  {| _target := target; _args := args; _kwargs := kwargs;
     _exception := None; _output := PyNone; life := NotStarted |}.

(** An attribute assignment performed by a method body. *)
Inductive write : Type :=
  | W_output (v : pyobj)
  | W_exception (x : option pyexc).

Definition apply_write (w : write) (t : RespondingThread) : RespondingThread :=
  match w with
  | W_output v => set_output v t
  | W_exception x => set_exception x t
  end.

(** What running a method body amounts to: the assignments it performs,
    in order, and how it ends ([Returns] a value or lets an exception
    escape). *)
Record effect (A : Type) : Type := mkEffect {
  writes : list write;
  ending : outcome A
}.
Arguments mkEffect {A} writes ending.
Arguments writes {A} e.
Arguments ending {A} e.

Definition apply_writes (ws : list write) (t : RespondingThread) : RespondingThread :=
  foldl (fun acc w => apply_write w acc) t ws.

(** [RespondingThread.run]:
<<
    try:
        self._output = self._target( *self._args, **self._kwargs)
    except Exception as e:
        self._exception = e
>>
    An exception that is not an instance of [Exception] is not caught
    by the [except] clause and leaves the body. *)
Definition run_body (t : RespondingThread) : effect unit :=
  match _target t (_args t) (_kwargs t) with
  | Returns v => mkEffect [W_output v] (Returns tt)
  | Raises e =>
      if exc_is_Exception e
      then mkEffect [W_exception (Some e)] (Returns tt)
      else mkEffect [] (Raises e)
  end.

Definition run (t : RespondingThread) : RespondingThread :=
  apply_writes (writes (run_body t)) t.

(** [bool(self._exception)]: [None] is false, an exception object has
    its own truth value. *)
Definition truth (x : option pyexc) : bool :=
  match x with
  | None => false
  | Some e => exc_truthy e
  end.

(** The body of [RespondingThread.output] after [join] has returned:
<<
    if self._exception:
        e = self._exception
        self._exception = None
        raise e
    return self._output
>> *)
Definition output_body (t : RespondingThread) : effect pyobj :=
  match _exception t with
  | Some e =>
      if truth (Some e)
      then mkEffect [W_exception None] (Raises e)
      else mkEffect [] (Returns (_output t))
  | None => mkEffect [] (Returns (_output t))
  end.

(** ** Starting, finishing and joining a thread

    [threading.Thread] is library code: [start] may be called once,
    [join] refuses a thread that was never started, and returns when the
    thread has finished or, given a timeout, when the timeout elapses. *)

Definition RuntimeError (msg : string) : pyexc := mkExc "RuntimeError" msg true true.

Definition start (t : RespondingThread) : RespondingThread * outcome unit :=
  match life t with
  | NotStarted => (set_life Running t, Returns tt)
  | _ => (t, Raises (RuntimeError "threads can only be started once"))
  end.

(** The worker: it executes [run] and the thread stops, whether [run]
    returned or let an exception escape. *)
Definition worker (t : RespondingThread) : RespondingThread :=
  set_life Finished (run t).

(** [join(timeout)]: [None] while the call is still blocked.  On a
    running thread a call with a timeout returns when the timeout has
    elapsed, which is the case this function gives; the case where the
    worker ends first is the worker's move followed by [join] on the
    finished thread.  The [OverflowError] of a timeout above
    [threading.TIMEOUT_MAX] is not modelled. *)
Definition join (timeout : option Z) (t : RespondingThread) : option (outcome unit) :=
  match life t with
  | NotStarted => Some (Raises (RuntimeError "cannot join thread before it is started"))
  | Running => match timeout with None => None | Some _ => Some (Returns tt) end
  | Finished => Some (Returns tt)
  end.

(** [RespondingThread.output(timeout)]: [None] while blocked in [join],
    otherwise the handle after the call and what the call did. *)
Definition output (timeout : option Z) (t : RespondingThread)
  : option (RespondingThread * outcome pyobj) :=
  match join timeout t with
  | None => None
  | Some (Raises e) => Some (t, Raises e)
  | Some (Returns _) =>
      let eff := output_body t in
      Some (apply_writes (writes eff) t, ending eff)
  end.

(** A handle from construction to the end of its worker. *)
Definition finished (t : RespondingThread) : RespondingThread :=
  worker (fst (start t)).

(** ** [thread_map] *)

(** Python's [zip] of three sequences: it stops at the shortest. *)
Fixpoint zip3 {A B C : Type} (xs : list A) (ys : list B) (zs : list C)
  : list (A * B * C) :=
  match xs, ys, zs with
  | x :: xs, y :: ys, z :: zs => (x, y, z) :: zip3 xs ys zs
  | _, _, _ => []
  end.

(** [if args is None: args = ((),) * len(callables)] *)
Definition args_or_default (callables : list Callable) (args : option (list (list pyobj)))
  : list (list pyobj) :=
  match args with
  | None => replicate (length callables) []
  | Some a => a
  end.

(** [if kwargs is None: kwargs = (empty_dict,) * len(callables)] *)
Definition kwargs_or_default (callables : list Callable) (kwargs : option (list kwdict))
  : list kwdict :=
  match kwargs with
  | None => replicate (length callables) []
  | Some k => k
  end.

(** The entries [thread_map] zips together. *)
Definition entries (callables : list Callable) (args : option (list (list pyobj)))
    (kwargs : option (list kwdict)) : list (Callable * list pyobj * kwdict) :=
  zip3 callables (args_or_default callables args) (kwargs_or_default callables kwargs).

(** [threads = [RespondingThread(target=c, args=a, kwargs=k) for c, a, k in zip(...)]] *)
Definition construct (callables : list Callable) (args : option (list (list pyobj)))
    (kwargs : option (list kwdict)) : list RespondingThread :=
  (fun '(c, a, k) => __init__ c a (Some k)) <$> entries callables args kwargs.

(** [[t.output() for t in threads]], the list being built on the left:
    the first [output] that raises ends the comprehension. *)
Fixpoint collect_from (acc : list pyobj) (ts : list RespondingThread)
  : outcome (list pyobj) :=
  match ts with
  | [] => Returns acc
  | t :: ts =>
      match ending (output_body t) with
      | Raises e => Raises e
      | Returns v => collect_from (acc ++ [v]) ts
      end
  end.

(** What a call of [thread_map] yields once every worker it waits for
    has finished.  The interleaving of the main thread with the workers
    is [machine] below; [thread_map_sound] relates the two. *)
Definition thread_map (callables : list Callable) (args : option (list (list pyobj)))
    (kwargs : option (list kwdict)) : outcome (list pyobj) :=
  collect_from [] (finished <$> construct callables args kwargs).

(** *** The threads of one call, interleaved *)

(** Where the main thread is in the body of [thread_map]. *)
Inductive pc : Type :=
  | Starting (i : nat)                       (* [for t in threads: t.start()], next index *)
  | Collecting (i : nat) (acc : list pyobj)  (* the comprehension, next index and values so far *)
  | Done (r : outcome (list pyobj)).         (* returned or raised *)

Inductive event : Type :=
  | EvStart (i : nat)     (* the main thread called [threads[i].start()] *)
  | EvRun (i : nat)       (* worker [i] executed [run], calling [callables[i]] *)
  | EvCollect (i : nat).  (* [threads[i].output()] returned or raised in the main thread *)

Record machine : Type := mkMachine {
  threads : list RespondingThread;
  main : pc;
  history : list event
}.

(** Who moves next: the main thread or the worker of [threads[i]]. *)
Inductive choice : Type :=
  | Main
  | Worker (i : nat).

Definition initial (callables : list Callable) (args : option (list (list pyobj)))
    (kwargs : option (list kwdict)) : machine :=
  mkMachine (construct callables args kwargs) (Starting 0) [].

(** One move; [None] when the chosen thread cannot move (the worker is
    not running, the main thread is blocked in [join] or has finished). *)
Definition step (c : choice) (m : machine) : option machine :=
  match c with
  | Worker i =>
      match threads m !! i with
      | Some t =>
          match life t with
          | Running =>
              Some (mkMachine (<[i := worker t]> (threads m)) (main m) (history m ++ [EvRun i]))
          | _ => None
          end
      | None => None
      end
  | Main =>
      match main m with
      | Starting i =>
          match threads m !! i with
          | Some t =>
              match start t with
              | (t', Returns _) =>
                  Some (mkMachine (<[i := t']> (threads m)) (Starting (S i))
                          (history m ++ [EvStart i]))
              | (t', Raises e) =>
                  Some (mkMachine (<[i := t']> (threads m)) (Done (Raises e))
                          (history m ++ [EvStart i]))
              end
          | None => Some (mkMachine (threads m) (Collecting 0 []) (history m))
          end
      | Collecting i acc =>
          match threads m !! i with
          | Some t =>
              match output None t with
              | None => None
              | Some (t', Returns v) =>
                  Some (mkMachine (<[i := t']> (threads m)) (Collecting (S i) (acc ++ [v]))
                          (history m ++ [EvCollect i]))
              | Some (t', Raises e) =>
                  Some (mkMachine (<[i := t']> (threads m)) (Done (Raises e))
                          (history m ++ [EvCollect i]))
              end
          | None => Some (mkMachine (threads m) (Done (Returns acc)) (history m))
          end
      | Done _ => None
      end
  end.

(** Following a schedule, every move of which must be possible. *)
Fixpoint exec (sched : list choice) (m : machine) : option machine :=
  match sched with
  | [] => Some m
  | c :: sched =>
      match step c m with
      | Some m' => exec sched m'
      | None => None
      end
  end.

(** The events of the main thread, in order. *)
Definition is_main_event (e : event) : bool :=
  match e with
  | EvRun _ => false
  | _ => true
  end.

Definition main_events (h : list event) : list event :=
  List.filter is_main_event h.

Definition ran (h : list event) : list nat :=
  omap (fun e => match e with EvRun i => Some i | _ => None end) h.

(** ** [links.py] *)

Module links.

(** The fragment of Python's regular expressions that [_guid_pattern]
    is written in.  A character of a [str] is modelled by an [ascii]
    (code points 0 to 255), where [\d] is exactly [0-9]; above that
    range [\d] also matches the other Unicode decimal digits, and such
    strings are outside this model. *)
Inductive class_item : Type :=
  | Digit                     (* \d *)
  | Range (lo hi : ascii).    (* lo-hi *)

Inductive regex : Type :=
  | Bol                            (* ^ *)
  | Eol                            (* $ *)
  | Lit (c : ascii)
  | Class (items : list class_item)    (* [...] *)
  | Cat (r1 r2 : regex)
  | Repeat (n : nat) (r : regex).      (* r{n} *)

Definition code (c : ascii) : N := N_of_ascii c.

Definition in_item (c : ascii) (it : class_item) : bool :=
  match it with
  | Digit => (code "0" <=? code c)%N && (code c <=? code "9")%N
  | Range lo hi => (code lo <=? code c)%N && (code c <=? code hi)%N
  end.

Definition in_class (items : list class_item) (c : ascii) : bool :=
  existsb (in_item c) items.

(** A position in the subject: how many characters were consumed and
    what is left. *)
Definition cursor : Type := (nat * string)%type.

Definition bind_cursor (f : cursor -> option cursor) (x : option cursor) : option cursor :=
  match x with
  | Some cur => f cur
  | None => None
  end.

(** Matching at a cursor.  Without [re.MULTILINE], [^] matches at the
    start of the string only, and [$] at the end of the string and just
    before a newline that ends the string. *)
Fixpoint match_at (r : regex) (cur : cursor) : option cursor :=
  match r with
  | Bol => match fst cur with O => Some cur | S _ => None end
  | Eol =>
      match snd cur with
      | EmptyString => Some cur
      | String c EmptyString => if Ascii.eqb c "010" then Some cur else None
      | _ => None
      end
  | Lit c =>
      match snd cur with
      | String c' rest => if Ascii.eqb c c' then Some (S (fst cur), rest) else None
      | EmptyString => None
      end
  | Class items =>
      match snd cur with
      | String c' rest => if in_class items c' then Some (S (fst cur), rest) else None
      | EmptyString => None
      end
  | Cat r1 r2 => bind_cursor (match_at r2) (match_at r1 cur)
  | Repeat n r => Nat.iter n (bind_cursor (match_at r)) (Some cur)
  end.

(** [pattern.match(s)]: a match object, or [None]. *)
Definition re_match (r : regex) (s : string) : option cursor :=
  match_at r (0, s).

Definition hex : regex := Class [Digit; Range "a" "f"].

(** [_guid_pattern = re.compile(r'^[\da-f]{8}-([\da-f]{4}-){3}[\da-f]{12}$')] *)
Definition _guid_pattern : regex :=
  Cat Bol
   (Cat (Repeat 8 hex)
   (Cat (Lit "-")
   (Cat (Repeat 3 (Cat (Repeat 4 hex) (Lit "-")))
   (Cat (Repeat 12 hex)
        Eol)))).

Record Link : Type := mkLink {
  head : string;
  tail : string;
  edge_type : string;
  description : string
}.

Definition ValueError (msg : string) : pyexc := mkExc "ValueError" msg true true.

(** [Link.validate_node] *)
Definition validate_node (node_guid node : string) : outcome unit :=
  match re_match _guid_pattern node_guid with
  | Some _ => Returns tt
  | None =>
      Raises (ValueError ("The guid given for " ++ node ++ " is not a valid guid. Received "
                            ++ node_guid ++ "."))
  end.

(** [Link.__post_init__] *)
Definition __post_init__ (self : Link) : outcome unit :=
  match validate_node (head self) "head" with
  | Raises e => Raises e
  | Returns _ => validate_node (tail self) "tail"
  end.

(** The constructor the [@dataclass] decorator generates: it stores the
    four fields, [description] defaulting to the empty string, and then calls
    [__post_init__]. *)
Definition new (head tail edge_type : string) (description : option string)
  : outcome Link :=
  let self := mkLink head tail edge_type (default EmptyString description) in
  match __post_init__ self with
  | Raises e => Raises e
  | Returns _ => Returns self
  end.

(** The identifier format in the specification's words: 36 characters,
    groups of 8, 4, 4, 4 and 12 lowercase hexadecimal digits separated
    by hyphens. *)
Definition lower_hex (c : ascii) : bool :=
  ((code "0" <=? code c)%N && (code c <=? code "9")%N)
  || ((code "a" <=? code c)%N && (code c <=? code "f")%N).

Definition group (n : nat) (s : list ascii) : bool :=
  (length s =? n)%nat && forallb lower_hex s.

Definition canonical_chars (s : list ascii) : bool :=
  (length s =? 36)%nat
  && group 8 (take 8 s)
  && bool_decide (s !! 8%nat = Some "-"%char)
  && group 4 (take 4 (drop 9 s))
  && bool_decide (s !! 13%nat = Some "-"%char)
  && group 4 (take 4 (drop 14 s))
  && bool_decide (s !! 18%nat = Some "-"%char)
  && group 4 (take 4 (drop 19 s))
  && bool_decide (s !! 23%nat = Some "-"%char)
  && group 12 (drop 24 s).

Definition canonical_guid (s : string) : bool :=
  canonical_chars (list_ascii_of_string s).

(** A line feed, as a string. *)
Definition newline : string := String "010" EmptyString.

(** The strings [_guid_pattern] matches, as shown below: a canonical
    identifier, or one followed by a single line feed. *)
Definition accepted (s : string) : Prop :=
  canonical_guid s = true
  \/ exists s', s = (s' ++ newline)%string /\ canonical_guid s' = true.

(** The message of the [ValueError] that [validate_node] raises. *)
Definition invalid_guid_message (node node_guid : string) : string :=
  "The guid given for " ++ node ++ " is not a valid guid. Received " ++ node_guid ++ ".".

End links.

(** ** The life of one handle *)

(** What can happen to a handle: its owner calls [start] or
    [output(timeout)], or its worker executes [run] and stops. *)
Inductive handle_step : RespondingThread -> RespondingThread -> Prop :=
  | hs_start t : handle_step t (fst (start t))
  | hs_worker t : life t = Running -> handle_step t (worker t)
  | hs_output timeout t t' o : output timeout t = Some (t', o) -> handle_step t t'.

Inductive handle_reach (t0 : RespondingThread) : RespondingThread -> Prop :=
  | hr_init : handle_reach t0 t0
  | hr_step t t' : handle_reach t0 t -> handle_step t t' -> handle_reach t0 t'.

(** A slot is set when it holds something other than [None]. *)
Definition value_set (t : RespondingThread) : bool :=
  match _output t with PyNone => false | _ => true end.

Definition failure_set (t : RespondingThread) : bool :=
  match _exception t with None => false | Some _ => true end.

(** The slot an assignment stores into, when it stores an object
    ([self._exception = None] clears, it does not set). *)
Inductive slot : Type := SlotOutput | SlotException.

Definition stores (w : write) : option slot :=
  match w with
  | W_output _ => Some SlotOutput
  | W_exception (Some _) => Some SlotException
  | W_exception None => None
  end.

(** ** Callables used as concrete inputs *)

Definition ZeroDivisionError : pyexc := mkExc "ZeroDivisionError" "division by zero" true true.

(** [sys.exit()] raises [SystemExit], which derives from [BaseException]
    and not from [Exception]. *)
Definition SystemExit : pyexc := mkExc "SystemExit" "0" false true.

Definition returns42 : Callable := fun _ _ => Returns (PyInt 42).
Definition returns_None : Callable := fun _ _ => Returns PyNone.
Definition divByZero : Callable := fun _ _ => Raises ZeroDivisionError.
Definition calls_sys_exit : Callable := fun _ _ => Raises SystemExit.

(** [def succ(x): return x + 1], which fails with [TypeError] on any
    other argument list. *)
Definition succ : Callable := fun args _ =>
  match args with
  | [PyInt n] => Returns (PyInt (n + 1))
  | _ => Raises (mkExc "TypeError" "succ() takes exactly one int" true true)
  end.

(** An exception whose class defines [__len__] returning 0: an instance
    of [Exception] that tests false. *)
Definition EmptyError : pyexc := mkExc "EmptyError" "nothing here" true false.
Definition raises_falsy : Callable := fun _ _ => Raises EmptyError.

(** ** Invariants *)

(** From construction until the worker stops both slots hold [None],
    and afterwards at most one holds an object. *)
Definition slots_ok (t : RespondingThread) : Prop :=
  (life t <> Finished -> _output t = PyNone /\ _exception t = None)
  /\ (value_set t && failure_set t = false).

(** A handle after [start]. *)
Definition started (t : RespondingThread) : RespondingThread := fst (start t).

(** Handle [j], built as [t0], when the main thread is about to start
    handle [i]. *)
Definition thread_ok (i j : nat) (t0 t : RespondingThread) : Prop :=
  if decide (j < i) then t = started t0 \/ t = finished t0 else t = t0.

(** What the main thread has done so far and what that leaves of the
    handles: the invariant of every interleaving of one call. *)
Definition inv (callables : list Callable) (args : option (list (list pyobj)))
    (kwargs : option (list kwdict)) (m : machine) : Prop :=
  let ts0 := construct callables args kwargs in
  let n := length ts0 in
  length (threads m) = n
  /\ (forall j, In j (ran (history m)) -> j < n)
  /\ match main m with
     | Starting i =>
         i <= n
         /\ main_events (history m) = EvStart <$> seq 0 i
         /\ forall j t0, ts0 !! j = Some t0 ->
              exists t, threads m !! j = Some t /\ thread_ok i j t0 t
     | Collecting i acc =>
         i <= n
         /\ main_events (history m) = ((EvStart <$> seq 0 n) ++ (EvCollect <$> seq 0 i))%list
         /\ collect_from acc (drop i (finished <$> ts0)) = thread_map callables args kwargs
         /\ forall j t0, ts0 !! j = Some t0 -> i <= j ->
              exists t, threads m !! j = Some t /\ (t = started t0 \/ t = finished t0)
     | Done r =>
         r = thread_map callables args kwargs
         /\ exists k, k <= n
              /\ main_events (history m)
                 = ((EvStart <$> seq 0 n) ++ (EvCollect <$> seq 0 k))%list
     end.

(** ** What one slot yields when it is collected *)

(** [output()] of the finished handle for [target( *args, **kwargs)]. *)
Definition slot_result (c : Callable) (a : list pyobj) (k : kwdict) : outcome pyobj :=
  match c a k with
  | Returns v => Returns v
  | Raises e => if exc_is_Exception e && exc_truthy e then Raises e else Returns PyNone
  end.

(** How the workers' runs relate to the main thread's calls, in every
    interleaving: no callable is executed twice, a handle has stopped
    exactly when its callable was executed, a run follows its [start], a
    collection follows the run, and a call that returns a list has
    collected every handle. *)
Definition runs_ok (m : machine) : Prop :=
  NoDup (ran (history m))
  /\ (forall j t, threads m !! j = Some t ->
        (life t = Finished <-> In j (ran (history m))))
  /\ (forall j t, threads m !! j = Some t -> life t <> NotStarted ->
        In (EvStart j) (history m))
  /\ (forall i, In (EvCollect i) (history m) -> In i (ran (history m)))
  /\ (forall i, In i (ran (history m)) -> In (EvStart i) (history m))
  /\ match main m with
     | Starting _ => True
     | Collecting i _ => forall j, j < i -> In (EvCollect j) (history m)
     | Done (Returns _) =>
         forall j, j < length (threads m) -> In (EvCollect j) (history m)
     | Done (Raises _) => True
     end.

(** A call that has raised has raised what the slot it collected last
    yielded, after starting every handle and collecting the handles up
    to that slot. *)
Definition failure_ok (callables : list Callable) (args : option (list (list pyobj)))
    (kwargs : option (list kwdict)) (m : machine) : Prop :=
  forall e, main m = Done (Raises e) ->
    exists j c a k,
      entries callables args kwargs !! j = Some (c, a, k)
      /\ slot_result c a k = Raises e
      /\ main_events (history m)
         = ((EvStart <$> seq 0 (length (construct callables args kwargs)))
              ++ (EvCollect <$> seq 0 (S j)))%list.

(** A bound on the moves still possible: every move lowers it. *)
Definition weight (t : RespondingThread) : nat :=
  match life t with
  | NotStarted => 2
  | Running => 1
  | Finished => 0
  end.

Definition pc_measure (n : nat) (p : pc) : nat :=
  match p with
  | Starting i => (n - i) + n + 3
  | Collecting i _ => (n - i) + 1
  | Done _ => 0
  end.

Definition measure (m : machine) : nat :=
  sum_list (weight <$> threads m) + pc_measure (length (threads m)) (main m).

Close Scope string_scope.

(** * Properties *)

(** ** One handle *)

Section Handle.

Implicit Types (t : RespondingThread) (e : pyexc) (v : pyobj).

Lemma start_fresh target args kwargs :
  start (__init__ target args kwargs)
  = (set_life Running (__init__ target args kwargs), Returns tt).
Proof. reflexivity. Qed.

Lemma life_worker t : life (worker t) = Finished.
Proof. reflexivity. Qed.

Lemma run_returns t v :
  _target t (_args t) (_kwargs t) = Returns v ->
  run t = set_output v t.
Proof. intros H. unfold run, run_body. rewrite H. reflexivity. Qed.

Lemma run_raises_Exception t e :
  _target t (_args t) (_kwargs t) = Raises e ->
  exc_is_Exception e = true ->
  run t = set_exception (Some e) t.
Proof. intros H He. unfold run, run_body. rewrite H, He. reflexivity. Qed.

Lemma run_raises_other t e :
  _target t (_args t) (_kwargs t) = Raises e ->
  exc_is_Exception e = false ->
  run t = t.
Proof. intros H He. unfold run, run_body. rewrite H, He. reflexivity. Qed.

(** [output] on a finished handle is its body, whatever the timeout. *)
Lemma output_finished timeout t :
  life t = Finished ->
  output timeout t
  = Some (apply_writes (writes (output_body t)) t, ending (output_body t)).
Proof. intros H. unfold output, join. rewrite H. reflexivity. Qed.

Lemma output_body_no_failure t :
  _exception t = None ->
  output_body t = mkEffect [] (Returns (_output t)).
Proof. intros H. unfold output_body. rewrite H. reflexivity. Qed.

Lemma output_body_failure t e :
  _exception t = Some e ->
  exc_truthy e = true ->
  output_body t = mkEffect [W_exception None] (Raises e).
Proof. intros H He. unfold output_body. rewrite H. simpl. rewrite He. reflexivity. Qed.

(** [output] never assigns to [_output]. *)
Lemma output_body_keeps_output t :
  _output (apply_writes (writes (output_body t)) t) = _output t
  /\ life (apply_writes (writes (output_body t)) t) = life t.
Proof.
  unfold output_body.
  destruct (_exception t) as [e|]; [destruct (truth (Some e))|]; split; reflexivity.
Qed.

Lemma output_keeps_output timeout t t' o :
  output timeout t = Some (t', o) -> _output t' = _output t /\ life t' = life t.
Proof.
  unfold output. destruct (join timeout t) as [[[]|e]|]; intros H; inversion H; subst.
  - apply output_body_keeps_output.
  - split; reflexivity.
Qed.

Lemma start_keeps t :
  _output (fst (start t)) = _output t
  /\ _exception (fst (start t)) = _exception t
  /\ (life t = Finished -> life (fst (start t)) = Finished).
Proof. unfold start. destruct (life t) eqn:Hl; repeat split; simpl; congruence. Qed.

(** Once the worker has stopped nothing starts it again, and nothing
    assigns to [_output] any more. *)
Lemma finished_output_stable t t' :
  life t = Finished ->
  handle_reach t t' ->
  life t' = Finished /\ _output t' = _output t.
Proof.
  intros Hl Hr. induction Hr as [|t1 t2 Hr [IHl IHo] Hs]; [split; [assumption|reflexivity]|].
  destruct Hs as [t1|t1 Hrun|timeout t1 t2 o Ho].
  - destruct (start_keeps t1) as (Ho & _ & Hf). split; [auto|congruence].
  - congruence.
  - apply output_keeps_output in Ho as [Ho Hf]. split; congruence.
Qed.

Lemma slots_ok_init target args kwargs : slots_ok (__init__ target args kwargs).
Proof. split; [split|]; reflexivity. Qed.

Lemma slots_ok_step t t' : slots_ok t -> handle_step t t' -> slots_ok t'.
Proof.
  intros [Hpre Hone] Hs. destruct Hs as [t|t Hrun|timeout t t' o Ho].
  - unfold start. destruct (life t) eqn:Hl; simpl; split; auto.
  - assert (Hn : life t <> Finished) by congruence.
    destruct (Hpre Hn) as [Hv He].
    split; [intros H; exfalso; apply H; reflexivity|].
    unfold worker, run, run_body, value_set, failure_set.
    destruct (_target t (_args t) (_kwargs t)) as [v|e]; simpl.
    + rewrite He. apply andb_false_r.
    + destruct (exc_is_Exception e); simpl; rewrite Hv; reflexivity.
  - unfold output in Ho. destruct (join timeout t) as [[[]|e]|]; inversion Ho; subst; clear Ho.
    + unfold output_body, slots_ok, value_set, failure_set in *.
      destruct (_exception t) as [e|] eqn:He; simpl.
      * destruct (exc_truthy e); simpl; rewrite ?He; split; auto.
        -- intros Hl. destruct (Hpre Hl). congruence.
        -- apply andb_false_r.
      * rewrite He. split; auto.
    + split; assumption.
Qed.

Lemma slots_ok_reach t0 t : slots_ok t0 -> handle_reach t0 t -> slots_ok t.
Proof. intros H0 Hr. induction Hr; eauto using slots_ok_step. Qed.

End Handle.

(** *** C5: what [run] does with a failure of the callable *)

(** C5, as stated, fails: a callable that raises an exception which is
    not an instance of [Exception] (here [sys.exit()], raising
    [SystemExit]) is not caught by [except Exception]; nothing is stored
    in the handle and the exception leaves the execution body. *)
Lemma C5_failure_escapes_run :
  let t := fst (start (__init__ calls_sys_exit [] None)) in
  _target t (_args t) (_kwargs t) = Raises SystemExit
  /\ ending (run_body t) = Raises SystemExit
  /\ _exception (worker t) = None.
Proof. repeat split. Qed.

(** C5, amended: a failure raised by the wrapped callable that is an
    instance of [Exception] is caught and stored as the handle's captured
    failure, and the execution body ends normally both when the callable
    returns, its value being stored, and when it raises such a failure;
    the worker then stops. *)
Theorem C5_run_captures_Exception (t : RespondingThread) :
  (forall v, _target t (_args t) (_kwargs t) = Returns v ->
     ending (run_body t) = Returns tt
     /\ _output (worker t) = v
     /\ _exception (worker t) = _exception t
     /\ life (worker t) = Finished)
  /\ (forall e, _target t (_args t) (_kwargs t) = Raises e ->
      exc_is_Exception e = true ->
      ending (run_body t) = Returns tt
      /\ _exception (worker t) = Some e
      /\ _output (worker t) = _output t
      /\ life (worker t) = Finished).
Proof.
  split.
  - intros v H. unfold worker. rewrite (run_returns t v H).
    unfold run_body. rewrite H. repeat split.
  - intros e H He. unfold worker. rewrite (run_raises_Exception t e H He).
    unfold run_body. rewrite H, He. repeat split.
Qed.

Lemma C5_run_captures_Exception_witness :
  (let t := fst (start (__init__ returns42 [] None)) in
   ending (run_body t) = Returns tt /\ _output (worker t) = PyInt 42
   /\ _exception (worker t) = _exception t /\ life (worker t) = Finished)
  /\ (let t := fst (start (__init__ divByZero [] None)) in
      ending (run_body t) = Returns tt /\ _exception (worker t) = Some ZeroDivisionError
      /\ _output (worker t) = _output t /\ life (worker t) = Finished).
Proof.
  split.
  - apply (proj1 (C5_run_captures_Exception (fst (start (__init__ returns42 [] None))))).
    reflexivity.
  - apply (proj2 (C5_run_captures_Exception (fst (start (__init__ divByZero [] None))))
             ZeroDivisionError); reflexivity.
Defined.

(** *** C1: collecting a failing handle twice *)

(** C1, as stated, fails: when the callable raises [SystemExit], which
    [run] does not capture, the first [output()] raises nothing and
    returns [None]. *)
Lemma C1_first_collect_raises_nothing :
  let t0 := __init__ calls_sys_exit [] None in
  _target t0 (_args t0) (_kwargs t0) = Raises SystemExit
  /\ output None (finished t0) = Some (finished t0, Returns PyNone).
Proof. split; reflexivity. Qed.

(** C1, amended: for every handle whose callable raised a failure that
    is an instance of [Exception] and that tests true, the first
    [output()] (no timeout) raises that failure and clears it from the
    handle, and the second raises nothing and returns [None]. *)
Theorem C1_failure_collected_once
    (target : Callable) (args : list pyobj) (kwargs : option kwdict) (e : pyexc) :
  let t0 := __init__ target args kwargs in
  _target t0 (_args t0) (_kwargs t0) = Raises e ->
  exc_is_Exception e = true ->
  exc_truthy e = true ->
  exists t1,
    _exception (finished t0) = Some e
    /\ output None (finished t0) = Some (t1, Raises e)
    /\ _exception t1 = None
    /\ output None t1 = Some (t1, Returns PyNone).
Proof.
  intros t0 H He Ht.
  assert (Hf : finished t0 = set_life Finished (set_exception (Some e) (set_life Running t0))).
  { unfold finished, t0. rewrite start_fresh. unfold worker. simpl fst.
    rewrite (run_raises_Exception _ e); [reflexivity|exact H|exact He]. }
  exists (set_exception None (finished t0)).
  rewrite Hf. split; [reflexivity|]. split.
  - rewrite output_finished by reflexivity.
    rewrite (output_body_failure _ e) by (try reflexivity; exact Ht). reflexivity.
  - split; [reflexivity|].
    rewrite output_finished by reflexivity.
    rewrite output_body_no_failure by reflexivity. reflexivity.
Qed.

Lemma C1_failure_collected_once_witness :
  exists t1,
    _exception (finished (__init__ divByZero [] None)) = Some ZeroDivisionError
    /\ output None (finished (__init__ divByZero [] None)) = Some (t1, Raises ZeroDivisionError)
    /\ _exception t1 = None
    /\ output None t1 = Some (t1, Returns PyNone).
Proof.
  apply (C1_failure_collected_once divByZero [] None ZeroDivisionError); reflexivity.
Defined.

(** *** C8: collecting a successful handle twice *)

(** C8: for every handle whose callable completed normally, [output]
    called after the worker has finished returns the stored value, a
    second call returns the same value, and whatever happens to the
    handle afterwards its stored value is never cleared. *)
Theorem C8_success_collect_idempotent
    (target : Callable) (args : list pyobj) (kwargs : option kwdict) (v : pyobj)
    (timeout1 timeout2 : option Z) :
  let t0 := __init__ target args kwargs in
  _target t0 (_args t0) (_kwargs t0) = Returns v ->
  exists t1 t2,
    output timeout1 (finished t0) = Some (t1, Returns v)
    /\ output timeout2 t1 = Some (t2, Returns v)
    /\ _output t1 = v /\ _output t2 = v
    /\ forall t, handle_reach (finished t0) t -> _output t = v.
Proof.
  intros t0 H.
  assert (Hf : finished t0 = set_life Finished (set_output v (set_life Running t0))).
  { unfold finished, t0. rewrite start_fresh. unfold worker. simpl fst.
    rewrite (run_returns _ v); [reflexivity|exact H]. }
  exists (finished t0), (finished t0). rewrite Hf.
  repeat split; try reflexivity.
  intros t Hr. apply finished_output_stable in Hr as [_ Ho]; [exact Ho|reflexivity].
Qed.

Lemma C8_success_collect_idempotent_witness :
  exists t1 t2,
    output None (finished (__init__ returns42 [] None)) = Some (t1, Returns (PyInt 42))
    /\ output None t1 = Some (t2, Returns (PyInt 42))
    /\ _output t1 = PyInt 42 /\ _output t2 = PyInt 42
    /\ forall t, handle_reach (finished (__init__ returns42 [] None)) t -> _output t = PyInt 42.
Proof.
  apply (C8_success_collect_idempotent returns42 [] None (PyInt 42) None None). reflexivity.
Defined.

(** *** C9: the two slots of a handle *)

(** C9, as stated, fails in its last part: when the callable raises an
    exception that is not an instance of [Exception], the execution body
    assigns neither slot, and both are still unset after the worker has
    stopped. *)
Lemma C9_body_sets_neither :
  let t := fst (start (__init__ calls_sys_exit [] None)) in
  handle_reach (__init__ calls_sys_exit [] None) (worker t)
  /\ writes (run_body t) = []
  /\ life (worker t) = Finished
  /\ value_set (worker t) = false
  /\ failure_set (worker t) = false.
Proof.
  simpl. repeat split.
  eapply hr_step; [eapply hr_step; [apply hr_init|apply hs_start]|].
  apply (hs_worker (fst (start (__init__ calls_sys_exit [] None)))). reflexivity.
Qed.

(** C9, amended: at every point of a handle's life at most one of the
    stored value and the stored failure is set; both are unset from
    construction until the worker's execution body has finished; and the
    execution body performs exactly one assignment, to the value slot
    when the callable returns and to the failure slot when it raises an
    instance of [Exception], and none when it raises anything else. *)
Theorem C9_at_most_one_slot
    (target : Callable) (args : list pyobj) (kwargs : option kwdict) (t : RespondingThread) :
  handle_reach (__init__ target args kwargs) t ->
  value_set t && failure_set t = false
  /\ (life t <> Finished -> _output t = PyNone /\ _exception t = None)
  /\ omap stores (writes (run_body t))
     = match _target t (_args t) (_kwargs t) with
       | Returns _ => [SlotOutput]
       | Raises e => if exc_is_Exception e then [SlotException] else []
       end.
Proof.
  intros Hr.
  destruct (slots_ok_reach _ t (slots_ok_init target args kwargs) Hr) as [Hpre Hone].
  split; [exact Hone|]. split; [exact Hpre|].
  unfold run_body. destruct (_target t (_args t) (_kwargs t)) as [v|e]; [reflexivity|].
  destruct (exc_is_Exception e); reflexivity.
Qed.

Lemma C9_at_most_one_slot_witness :
  let t := finished (__init__ returns42 [] None) in
  value_set t && failure_set t = false
  /\ (life t <> Finished -> _output t = PyNone /\ _exception t = None)
  /\ omap stores (writes (run_body t))
     = match _target t (_args t) (_kwargs t) with
       | Returns _ => [SlotOutput]
       | Raises e => if exc_is_Exception e then [SlotException] else []
       end.
Proof.
  apply (C9_at_most_one_slot returns42 [] None).
  eapply hr_step; [eapply hr_step; [apply hr_init|apply hs_start]|].
  apply (hs_worker (fst (start (__init__ returns42 [] None)))). reflexivity.
Defined.

(** ** One call of [thread_map] *)

Section Batch.

Variables (callables : list Callable)
          (args : option (list (list pyobj)))
          (kwargs : option (list kwdict)).

Local Abbreviation ts0 := (construct callables args kwargs).
Local Abbreviation n := (length (construct callables args kwargs)).

Lemma construct_fresh j t0 : ts0 !! j = Some t0 -> life t0 = NotStarted.
Proof.
  unfold construct. rewrite list_lookup_fmap.
  destruct (entries callables args kwargs !! j) as [[[c a] k]|]; simpl; [|discriminate].
  intros H. injection H as <-. reflexivity.
Qed.

Lemma start_NotStarted t :
  life t = NotStarted -> start t = (started t, Returns tt) /\ life (started t) = Running.
Proof. intros H. unfold started, start. rewrite H. split; reflexivity. Qed.

Lemma worker_started t : worker (started t) = finished t.
Proof. reflexivity. Qed.

Lemma inv_initial : inv callables args kwargs (initial callables args kwargs).
Proof.
  split; [reflexivity|]. split; [intros j []|]. simpl.
  split; [lia|]. split; [reflexivity|].
  intros j t0 H. exists t0. split; [exact H|].
  unfold thread_ok. destruct (decide (j < 0)); [lia|reflexivity].
Qed.

Lemma main_events_snoc h e :
  main_events (h ++ [e]) = main_events h ++ (if is_main_event e then [e] else []).
Proof.
  unfold main_events. rewrite List.filter_app. simpl.
  destruct (is_main_event e); reflexivity.
Qed.

Lemma ran_snoc h e j :
  In j (ran (h ++ [e])) -> In j (ran h) \/ e = EvRun j.
Proof.
  unfold ran. rewrite omap_app. rewrite in_app_iff. intros [H|H]; [left; exact H|].
  destruct e; simpl in H; try tauto. destruct H as [->|[]]. right. reflexivity.
Qed.

Lemma seq_snoc_fmap {A} (f : nat -> A) k : f <$> seq 0 (S k) = (f <$> seq 0 k) ++ [f k].
Proof. rewrite seq_S, fmap_app. reflexivity. Qed.

Lemma thread_ok_running i j t0 t :
  life t0 = NotStarted -> thread_ok i j t0 t -> life t = Running ->
  j < i /\ t = started t0.
Proof.
  unfold thread_ok. intros H0 Hok Hl. destruct (decide (j < i)).
  - split; [assumption|]. destruct Hok as [->| ->]; [reflexivity|discriminate].
  - subst t. congruence.
Qed.

(** Every move keeps the invariant. *)
Lemma inv_step c m m' :
  inv callables args kwargs m -> step c m = Some m' -> inv callables args kwargs m'.
Proof.
  intros (Hlen & Hran & Hpc) Hs. destruct c as [|j]; simpl in Hs.
  - destruct (main m) as [i|i acc|r] eqn:Hm.
    + destruct Hpc as (Hi & Hev & Hts).
      destruct (threads m !! i) as [t|] eqn:Ht.
      * assert (Hin : i < n). { apply lookup_lt_Some in Ht. lia. }
        destruct (lookup_lt_is_Some_2 ts0 i Hin) as [t0 Ht0].
        destruct (Hts i t0 Ht0) as (t' & Ht' & Hok). rewrite Ht in Ht'. injection Ht' as <-.
        unfold thread_ok in Hok. destruct (decide (i < i)); [lia|]. subst t.
        destruct (start_NotStarted t0 (construct_fresh i t0 Ht0)) as [Hst Hl].
        rewrite Hst in Hs. injection Hs as <-.
        split; [cbn [main history threads]; rewrite length_insert; exact Hlen|]. split.
        { cbn [main history threads]. intros j Hj. apply ran_snoc in Hj as [Hj|Hj]; [auto|discriminate]. }
        cbn [main history threads]. split; [lia|]. split.
        { rewrite main_events_snoc, Hev, seq_snoc_fmap. reflexivity. }
        intros j t1 Ht1. destruct (decide (j = i)) as [->|Hne].
        -- exists (started t0). split; [apply list_lookup_insert_eq; lia|].
           rewrite Ht0 in Ht1. injection Ht1 as <-.
           unfold thread_ok. destruct (decide (i < S i)); [left; reflexivity|lia].
        -- destruct (Hts j t1 Ht1) as (t & Ht2 & Hok2). exists t.
           split; [rewrite list_lookup_insert_ne; auto|].
           unfold thread_ok in *. destruct (decide (j < i)), (decide (j < S i)); auto; lia.
      * injection Hs as <-. apply lookup_ge_None in Ht.
        assert (Hin : i = n) by lia.
        split; [exact Hlen|]. split; [exact Hran|]. cbn [main history threads].
        split; [lia|]. split; [rewrite Hev, Hin, app_nil_r; reflexivity|].
        split; [reflexivity|].
        intros j t0 Ht0 _. destruct (Hts j t0 Ht0) as (t & Ht1 & Hok). exists t.
        split; [exact Ht1|]. unfold thread_ok in Hok.
        destruct (decide (j < i)); [exact Hok|]. apply lookup_lt_Some in Ht0. lia.
    + destruct Hpc as (Hi & Hev & Hcol & Hts).
      destruct (threads m !! i) as [t|] eqn:Ht.
      * assert (Hin : i < n). { apply lookup_lt_Some in Ht. lia. }
        destruct (lookup_lt_is_Some_2 ts0 i Hin) as [t0 Ht0].
        destruct (Hts i t0 Ht0 (Nat.le_refl i)) as (t' & Ht' & Hok).
        rewrite Ht in Ht'. injection Ht' as <-.
        pose proof (construct_fresh i t0 Ht0) as Hfresh.
        destruct Hok as [-> | ->].
        { unfold output, join in Hs.
          rewrite (proj2 (start_NotStarted t0 Hfresh)) in Hs. discriminate. }
        rewrite output_finished in Hs by reflexivity.
        assert (Hdrop : drop i (finished <$> ts0)
                        = finished t0 :: drop (S i) (finished <$> ts0)).
        { apply drop_S. rewrite list_lookup_fmap, Ht0. reflexivity. }
        rewrite Hdrop in Hcol. simpl in Hcol.
        destruct (ending (output_body (finished t0))) as [v|e]; injection Hs as <-.
        -- split; [cbn [main history threads]; rewrite length_insert; exact Hlen|]. split.
           { cbn [main history threads]. intros j Hj. apply ran_snoc in Hj as [Hj|Hj]; [auto|discriminate]. }
           cbn [main history threads]. split; [lia|]. split.
           { rewrite main_events_snoc, Hev, seq_snoc_fmap. cbn [is_main_event].
             rewrite <- app_assoc. reflexivity. }
           split; [exact Hcol|].
           intros j t1 Ht1 Hj. destruct (Hts j t1 Ht1) as (t & Ht2 & Hok2); [lia|].
           exists t. split; [rewrite list_lookup_insert_ne by lia; exact Ht2|exact Hok2].
        -- split; [cbn [main history threads]; rewrite length_insert; exact Hlen|]. split.
           { cbn [main history threads]. intros j Hj. apply ran_snoc in Hj as [Hj|Hj]; [auto|discriminate]. }
           cbn [main history threads]. split; [exact Hcol|].
           exists (S i). split; [lia|].
           rewrite main_events_snoc, Hev, seq_snoc_fmap. cbn [is_main_event].
           rewrite <- app_assoc. reflexivity.
      * injection Hs as <-. apply lookup_ge_None in Ht.
        assert (Hin : i = n) by lia.
        split; [exact Hlen|]. split; [exact Hran|]. cbn [main history threads]. split.
        -- rewrite drop_ge in Hcol by (rewrite length_fmap; lia). exact Hcol.
        -- exists i. split; [lia|exact Hev].
    + discriminate.
  - destruct (threads m !! j) as [t|] eqn:Ht; [|discriminate].
    destruct (life t) eqn:Hl; try discriminate. injection Hs as <-.
    assert (Hin : j < n). { apply lookup_lt_Some in Ht. lia. }
    destruct (lookup_lt_is_Some_2 ts0 j Hin) as [t0 Ht0].
    pose proof (construct_fresh j t0 Ht0) as Hfresh.
    split; [cbn [main history threads]; rewrite length_insert; exact Hlen|]. split.
    { cbn [main history threads]. intros k Hk. apply ran_snoc in Hk as [Hk|Hk]; [auto|].
      injection Hk as ->. exact Hin. }
    cbn [main history threads]. rewrite main_events_snoc. cbn [is_main_event]. rewrite app_nil_r.
    destruct (main m) as [i|i acc|r] eqn:Hm.
    + destruct Hpc as (Hi & Hev & Hts). split; [exact Hi|]. split; [exact Hev|].
      intros k t1 Ht1. destruct (Hts k t1 Ht1) as (t' & Ht' & Hok).
      destruct (decide (k = j)) as [->|Hne].
      * rewrite Ht in Ht'. injection Ht' as <-. rewrite Ht0 in Ht1. injection Ht1 as <-.
        destruct (thread_ok_running i j t0 t Hfresh Hok Hl) as [Hji ->].
        exists (finished t0). split; [apply list_lookup_insert_eq; lia|].
        unfold thread_ok. destruct (decide (j < i)); [right; reflexivity|lia].
      * exists t'. split; [rewrite list_lookup_insert_ne by auto; exact Ht'|exact Hok].
    + destruct Hpc as (Hi & Hev & Hcol & Hts).
      split; [exact Hi|]. split; [exact Hev|]. split; [exact Hcol|].
      intros k t1 Ht1 Hk. destruct (Hts k t1 Ht1 Hk) as (t' & Ht' & Hok).
      destruct (decide (k = j)) as [->|Hne].
      * rewrite Ht in Ht'. injection Ht' as <-. rewrite Ht0 in Ht1. injection Ht1 as <-.
        destruct Hok as [-> | ->]; [|discriminate].
        exists (finished t0). split; [apply list_lookup_insert_eq; lia|right; reflexivity].
      * exists t'. split; [rewrite list_lookup_insert_ne by auto; exact Ht'|exact Hok].
    + exact Hpc.
Qed.

Lemma inv_exec sched : forall m m',
  inv callables args kwargs m -> exec sched m = Some m' -> inv callables args kwargs m'.
Proof.
  induction sched as [|c sched IH]; intros m m' Hinv Hex; simpl in Hex.
  - injection Hex as <-. exact Hinv.
  - destruct (step c m) as [m1|] eqn:Hs; [|discriminate].
    eapply IH; [eapply inv_step; eassumption|exact Hex].
Qed.

(** Whatever the interleaving, a call that has ended has ended as
    [thread_map] says. *)
Lemma thread_map_sound sched m r :
  exec sched (initial callables args kwargs) = Some m ->
  main m = Done r ->
  r = thread_map callables args kwargs.
Proof.
  intros Hex Hm. pose proof (inv_exec sched _ _ inv_initial Hex) as (_ & _ & Hpc).
  rewrite Hm in Hpc. apply Hpc.
Qed.

(** *** Termination and progress *)

Lemma sum_list_insert (l : list nat) i x y :
  l !! i = Some x -> sum_list (<[i:=y]> l) + x = sum_list l + y.
Proof.
  revert i. induction l as [|z l IH]; intros [|i] H; simpl in *; try discriminate.
  - injection H as ->. lia.
  - specialize (IH i H). lia.
Qed.

Lemma weights_insert (ts : list RespondingThread) i t t' :
  ts !! i = Some t ->
  sum_list (weight <$> <[i:=t']> ts) + weight t = sum_list (weight <$> ts) + weight t'.
Proof.
  intros H. rewrite list_fmap_insert. apply sum_list_insert.
  rewrite list_lookup_fmap, H. reflexivity.
Qed.

(** Every move lowers [measure]: no interleaving goes on for ever. *)
Lemma step_measure c m m' : step c m = Some m' -> measure m' < measure m.
Proof.
  intros Hs. unfold measure. destruct c as [|j]; simpl in Hs.
  - destruct (main m) as [i|i acc|r] eqn:Hm; [| |discriminate].
    + destruct (threads m !! i) as [t|] eqn:Ht.
      * pose proof (lookup_lt_Some _ _ _ Ht) as Hlt.
        unfold start in Hs. destruct (life t) eqn:Hl; injection Hs as <-;
          cbn [threads main]; rewrite length_insert;
          pose proof (weights_insert (threads m) i t) as Hw.
        -- assert (W1 : weight t = 2) by (unfold weight; rewrite Hl; reflexivity).
           assert (W2 : weight (set_life Running t) = 1) by reflexivity.
           specialize (Hw (set_life Running t) Ht). rewrite W1, W2 in Hw.
           cbn [pc_measure]. lia.
        -- specialize (Hw t Ht). cbn [pc_measure]. lia.
        -- specialize (Hw t Ht). cbn [pc_measure]. lia.
      * injection Hs as <-. cbn [threads main pc_measure]. lia.
    + destruct (threads m !! i) as [t|] eqn:Ht.
      * pose proof (lookup_lt_Some _ _ _ Ht) as Hlt.
        destruct (output None t) as [[t' o]|] eqn:Ho; [|discriminate].
        apply output_keeps_output in Ho as [_ Hl].
        pose proof (weights_insert (threads m) i t t' Ht) as Hw.
        assert (Hwt : weight t' = weight t) by (unfold weight; rewrite Hl; reflexivity).
        destruct o as [v|e]; injection Hs as <-; cbn [threads main];
          rewrite length_insert; cbn [pc_measure]; lia.
      * injection Hs as <-. cbn [threads main pc_measure]. lia.
  - destruct (threads m !! j) as [t|] eqn:Ht; [|discriminate].
    destruct (life t) eqn:Hl; try discriminate. injection Hs as <-.
    cbn [threads main]. rewrite length_insert.
    pose proof (weights_insert (threads m) j t (worker t) Ht) as Hw.
    assert (W1 : weight t = 1) by (unfold weight; rewrite Hl; reflexivity).
    assert (W2 : weight (worker t) = 0) by reflexivity.
    rewrite W1, W2 in Hw. lia.
Qed.

Lemma exec_measure sched : forall m m',
  exec sched m = Some m' -> length sched + measure m' <= measure m.
Proof.
  induction sched as [|c sched IH]; intros m m' Hex; simpl in Hex.
  - injection Hex as <-. simpl. lia.
  - destruct (step c m) as [m1|] eqn:Hs; [|discriminate].
    apply step_measure in Hs. apply IH in Hex. simpl. lia.
Qed.

(** While the call has not ended some thread can move: the main thread
    is only ever blocked on a worker that is still running. *)
Lemma inv_progress m :
  inv callables args kwargs m ->
  (exists r, main m = Done r) \/ (exists c m', step c m = Some m').
Proof.
  intros (Hlen & Hran & Hpc). destruct (main m) as [i|i acc|r] eqn:Hm.
  - right. exists Main. simpl. rewrite Hm.
    destruct (threads m !! i) as [t|]; [|eauto].
    destruct (start t) as [t' [[]|e]]; eauto.
  - right. destruct Hpc as (Hi & Hev & Hcol & Hts).
    destruct (threads m !! i) as [t|] eqn:Ht.
    + assert (Hin : i < n). { apply lookup_lt_Some in Ht. lia. }
      destruct (lookup_lt_is_Some_2 ts0 i Hin) as [t0 Ht0].
      destruct (Hts i t0 Ht0 (Nat.le_refl i)) as (t' & Ht' & Hok).
      rewrite Ht in Ht'. injection Ht' as <-.
      destruct Hok as [-> | ->].
      * exists (Worker i). simpl. rewrite Ht.
        rewrite (proj2 (start_NotStarted t0 (construct_fresh i t0 Ht0))). eauto.
      * exists Main. simpl. rewrite Hm, Ht.
        rewrite output_finished by reflexivity.
        destruct (ending (output_body (finished t0))); eauto.
    + exists Main. simpl. rewrite Hm, Ht. eauto.
  - left. eauto.
Qed.

Lemma exec_app s1 : forall s2 m m1,
  exec s1 m = Some m1 -> exec (s1 ++ s2) m = exec s2 m1.
Proof.
  induction s1 as [|c s1 IH]; intros s2 m m1 H; simpl in *.
  - injection H as <-. reflexivity.
  - destruct (step c m) as [m'|]; [|discriminate]. apply IH. exact H.
Qed.

(** From every state an interleaving reaches, the call can be brought
    to its end, and the end is the one [thread_map] gives. *)
Lemma inv_completes k : forall m,
  measure m <= k ->
  inv callables args kwargs m ->
  exists sched m', exec sched m = Some m'
                   /\ main m' = Done (thread_map callables args kwargs).
Proof.
  induction k as [|k IH]; intros m Hk Hinv.
  - destruct (inv_progress m Hinv) as [[r Hr]|(c & m' & Hs)].
    + exists [], m. split; [reflexivity|].
      destruct Hinv as (_ & _ & Hpc). rewrite Hr in Hpc. rewrite Hr. f_equal. apply Hpc.
    + apply step_measure in Hs. lia.
  - destruct (inv_progress m Hinv) as [[r Hr]|(c & m1 & Hs)].
    + exists [], m. split; [reflexivity|].
      destruct Hinv as (_ & _ & Hpc). rewrite Hr in Hpc. rewrite Hr. f_equal. apply Hpc.
    + destruct (IH m1) as (sched & m' & Hex & Hm').
      * apply step_measure in Hs. lia.
      * eapply inv_step; eassumption.
      * exists (c :: sched), m'. split; [simpl; rewrite Hs; exact Hex|exact Hm'].
Qed.

Lemma thread_map_completes sched m :
  exec sched (initial callables args kwargs) = Some m ->
  exists sched' m', exec (sched ++ sched') (initial callables args kwargs) = Some m'
                    /\ main m' = Done (thread_map callables args kwargs).
Proof.
  intros Hex.
  destruct (inv_completes (measure m) m (Nat.le_refl _) (inv_exec sched _ _ inv_initial Hex))
    as (sched' & m' & Hex' & Hm').
  exists sched', m'. split; [|exact Hm'].
  rewrite (exec_app sched sched' _ m Hex). exact Hex'.
Qed.

End Batch.

(** ** The entries of a call *)

Lemma zip3_lookup {A B C} (xs : list A) (ys : list B) (zs : list C) i x y z :
  zip3 xs ys zs !! i = Some (x, y, z)
  <-> xs !! i = Some x /\ ys !! i = Some y /\ zs !! i = Some z.
Proof.
  revert ys zs i. induction xs as [|x0 xs IH]; intros [|y0 ys] [|z0 zs] [|i]; simpl;
    try (split; [discriminate|intros (H1 & H2 & H3); discriminate]).
  - split.
    + intros H. injection H as -> -> ->. repeat split.
    + intros (H1 & H2 & H3). congruence.
  - apply IH.
Qed.

Lemma zip3_length {A B C} (xs : list A) (ys : list B) (zs : list C) :
  length (zip3 xs ys zs) = length xs `min` (length ys `min` length zs).
Proof.
  revert ys zs. induction xs as [|x xs IH]; intros [|y ys] [|z zs]; simpl; try lia.
  rewrite IH. lia.
Qed.

Lemma zip3_take {A B C} (xs : list A) (ys : list B) (zs : list C) k :
  zip3 (take k xs) (take k ys) (take k zs) = take k (zip3 xs ys zs).
Proof.
  revert ys zs k. induction xs as [|x xs IH]; intros ys zs [|k]; try reflexivity.
  destruct ys as [|y ys]; [reflexivity|]. destruct zs as [|z zs]; [reflexivity|].
  simpl. rewrite IH. reflexivity.
Qed.

Lemma entries_lookup callables args kwargs i c a k :
  entries callables args kwargs !! i = Some (c, a, k)
  <-> callables !! i = Some c
      /\ args_or_default callables args !! i = Some a
      /\ kwargs_or_default callables kwargs !! i = Some k.
Proof. apply zip3_lookup. Qed.

Lemma construct_length callables args kwargs :
  length (construct callables args kwargs)
  = length callables
      `min` (length (args_or_default callables args)
               `min` length (kwargs_or_default callables kwargs)).
Proof. unfold construct, entries. rewrite length_fmap. apply zip3_length. Qed.

Lemma construct_lookup callables args kwargs i :
  construct callables args kwargs !! i
  = (fun '(c, a, k) => __init__ c a (Some k)) <$> entries callables args kwargs !! i.
Proof. unfold construct. apply list_lookup_fmap. Qed.

(** The truncation [zip] performs, made explicit. *)
Lemma construct_truncated callables args kwargs :
  let m := length (construct callables args kwargs) in
  construct (take m callables)
            (Some (take m (args_or_default callables args)))
            (Some (take m (kwargs_or_default callables kwargs)))
  = construct callables args kwargs.
Proof.
  unfold construct, entries. cbv zeta. cbn [args_or_default kwargs_or_default].
  rewrite length_fmap. f_equal. rewrite zip3_take. apply take_ge. lia.
Qed.

(** ** Collecting the slots *)

Lemma slot_ending c a k :
  ending (output_body (finished (__init__ c a (Some k)))) = slot_result c a k.
Proof.
  unfold finished, worker, run, run_body, slot_result. simpl.
  destruct (c a k) as [v|e]; [reflexivity|].
  destruct (exc_is_Exception e); simpl; [|reflexivity].
  unfold output_body. simpl. destruct (exc_truthy e); reflexivity.
Qed.

(** The handles of a list of entries, once their workers have stopped. *)
Local Abbreviation handles es :=
  (finished <$> ((fun '(c, a, k) => __init__ c a (Some k)) <$> es)).

Lemma collect_from_cons acc c a k es :
  collect_from acc (handles ((c, a, k) :: es))
  = match slot_result c a k with
    | Raises e => Raises e
    | Returns v => collect_from (acc ++ [v]) (handles es)
    end.
Proof. simpl. rewrite slot_ending. reflexivity. Qed.

(** All slots return: the list of their values, in input order. *)
Lemma collect_from_all_return es : forall acc,
  (forall i c a k, es !! i = Some (c, a, k) -> exists v, slot_result c a k = Returns v) ->
  exists vs,
    collect_from acc (handles es) = Returns (acc ++ vs)
    /\ length vs = length es
    /\ forall i c a k, es !! i = Some (c, a, k) ->
         exists v, slot_result c a k = Returns v /\ vs !! i = Some v.
Proof.
  induction es as [|[[c a] k] es IH]; intros acc H.
  - exists []. rewrite app_nil_r. repeat split. intros i c a k Hi. discriminate.
  - destruct (H 0 c a k eq_refl) as [v Hv].
    destruct (IH (acc ++ [v])) as (vs & Hc & Hl & Hvs).
    { intros i c' a' k' Hi. apply (H (S i)). exact Hi. }
    exists (v :: vs). rewrite collect_from_cons, Hv, Hc, <- app_assoc.
    split; [reflexivity|]. split; [simpl; lia|].
    intros [|i] c' a' k' Hi; simpl in Hi.
    + injection Hi as <- <- <-. exists v. split; [exact Hv|reflexivity].
    + apply Hvs. exact Hi.
Qed.

(** The first slot that raises decides, whatever the later ones do. *)
Lemma collect_from_first_raise es : forall acc j c a k e,
  es !! j = Some (c, a, k) ->
  slot_result c a k = Raises e ->
  (forall i c' a' k', i < j -> es !! i = Some (c', a', k') ->
     exists v, slot_result c' a' k' = Returns v) ->
  collect_from acc (handles es) = Raises e.
Proof.
  induction es as [|[[c0 a0] k0] es IH]; intros acc [|j] c a k e Hj He Hlow;
    try discriminate; simpl in Hj.
  - injection Hj as -> -> ->. rewrite collect_from_cons, He. reflexivity.
  - destruct (Hlow 0 c0 a0 k0) as [v Hv]; [lia|reflexivity|].
    rewrite collect_from_cons, Hv.
    apply (IH _ j c a k e Hj He).
    intros i c' a' k' Hi Hes. apply (Hlow (S i)); [lia|exact Hes].
Qed.

(** Either way: a list with one value per slot, or the failure of a slot. *)
Lemma collect_from_cases es : forall acc,
  (exists vs, collect_from acc (handles es) = Returns (acc ++ vs) /\ length vs = length es)
  \/ (exists j c a k e, es !! j = Some (c, a, k)
        /\ slot_result c a k = Raises e
        /\ collect_from acc (handles es) = Raises e).
Proof.
  induction es as [|[[c a] k] es IH]; intros acc.
  - left. exists []. rewrite app_nil_r. split; reflexivity.
  - rewrite collect_from_cons. destruct (slot_result c a k) as [v|e] eqn:Hs.
    + destruct (IH (acc ++ [v])) as [(vs & Hc & Hl)|(j & c' & a' & k' & e & Hj & He & Hc)].
      * left. exists (v :: vs). rewrite Hc, <- app_assoc. split; [reflexivity|simpl; lia].
      * right. exists (S j), c', a', k', e. repeat split; assumption.
    + right. exists 0, c, a, k, e. repeat split. exact Hs.
Qed.

Lemma thread_map_unfold callables args kwargs :
  thread_map callables args kwargs
  = collect_from [] (handles (entries callables args kwargs)).
Proof. reflexivity. Qed.

Lemma slot_result_returns c a k v : c a k = Returns v -> slot_result c a k = Returns v.
Proof. intros H. unfold slot_result. rewrite H. reflexivity. Qed.

Lemma slot_result_raises c a k e :
  c a k = Raises e -> exc_is_Exception e = true -> exc_truthy e = true ->
  slot_result c a k = Raises e.
Proof. intros H H1 H2. unfold slot_result. rewrite H, H1, H2. reflexivity. Qed.

(** A slot raises only what its callable raised. *)
Lemma slot_result_raises_inv c a k e :
  slot_result c a k = Raises e ->
  c a k = Raises e /\ exc_is_Exception e = true /\ exc_truthy e = true.
Proof.
  unfold slot_result. destruct (c a k) as [v|e']; [discriminate|].
  destruct (exc_is_Exception e') eqn:H1, (exc_truthy e') eqn:H2; simpl; try discriminate.
  intros H. injection H as <-. repeat split; assumption.
Qed.

(** Every interleaving of a call ends, and ends as [thread_map] says. *)
Lemma thread_map_every_run callables args kwargs r :
  thread_map callables args kwargs = r ->
  (forall sched m r',
     exec sched (initial callables args kwargs) = Some m -> main m = Done r' -> r' = r)
  /\ (forall sched m,
        exec sched (initial callables args kwargs) = Some m ->
        exists sched' m',
          exec (sched ++ sched') (initial callables args kwargs) = Some m'
          /\ main m' = Done r).
Proof.
  intros <-. split.
  - intros sched m r'. apply thread_map_sound.
  - intros sched m. apply thread_map_completes.
Qed.

Lemma entries_length_matching callables args kwargs :
  match args with None => True | Some a => length a = length callables end ->
  match kwargs with None => True | Some k => length k = length callables end ->
  length (entries callables args kwargs) = length callables.
Proof.
  intros Ha Hk. unfold entries. rewrite zip3_length.
  destruct args as [a|], kwargs as [k|]; simpl; rewrite ?length_replicate; lia.
Qed.

(** ** C4: a batch whose callables all return *)

(** C4: for every N >= 0 and every batch of N callables that all
    complete normally, [args] and [kwargs] being omitted or of length N,
    [thread_map] returns a list of length N whose element at each index
    [i] is the value [callables[i]] returned, in input order; every
    interleaving of the workers ends, and ends with that list. *)
Theorem C4_results_in_input_order
    (callables : list Callable) (args : option (list (list pyobj)))
    (kwargs : option (list kwdict)) :
  match args with None => True | Some a => length a = length callables end ->
  match kwargs with None => True | Some k => length k = length callables end ->
  (forall i c a k,
     callables !! i = Some c ->
     args_or_default callables args !! i = Some a ->
     kwargs_or_default callables kwargs !! i = Some k ->
     exists v, c a k = Returns v) ->
  exists vs,
    thread_map callables args kwargs = Returns vs
    /\ length vs = length callables
    /\ (forall i c a k v,
          callables !! i = Some c ->
          args_or_default callables args !! i = Some a ->
          kwargs_or_default callables kwargs !! i = Some k ->
          c a k = Returns v ->
          vs !! i = Some v)
    /\ (forall sched m r,
          exec sched (initial callables args kwargs) = Some m ->
          main m = Done r -> r = Returns vs)
    /\ (forall sched m,
          exec sched (initial callables args kwargs) = Some m ->
          exists sched' m',
            exec (sched ++ sched') (initial callables args kwargs) = Some m'
            /\ main m' = Done (Returns vs)).
Proof.
  intros Ha Hk Hall.
  destruct (collect_from_all_return (entries callables args kwargs) []) as (vs & Hc & Hl & Hvs).
  { intros i c a k Hi. apply entries_lookup in Hi as (H1 & H2 & H3).
    destruct (Hall i c a k H1 H2 H3) as [v Hv]. exists v. apply slot_result_returns, Hv. }
  exists vs. rewrite thread_map_unfold. simpl in Hc.
  split; [exact Hc|]. split.
  { rewrite Hl. apply entries_length_matching; assumption. }
  split.
  { intros i c a k v H1 H2 H3 Hv.
    destruct (Hvs i c a k) as (v' & Hv' & Hi); [apply entries_lookup; auto|].
    rewrite (slot_result_returns c a k v Hv) in Hv'. injection Hv' as <-. exact Hi. }
  apply thread_map_every_run. exact Hc.
Qed.

Lemma C4_results_in_input_order_witness :
  exists vs,
    thread_map [succ; returns42] (Some [[PyInt 1]; []]) None = Returns vs
    /\ length vs = 2
    /\ (forall i c a k v,
          [succ; returns42] !! i = Some c ->
          [[PyInt 1]; []] !! i = Some a ->
          [([] : kwdict); []] !! i = Some k ->
          c a k = Returns v ->
          vs !! i = Some v)
    /\ (forall sched m r,
          exec sched (initial [succ; returns42] (Some [[PyInt 1]; []]) None) = Some m ->
          main m = Done r -> r = Returns vs)
    /\ (forall sched m,
          exec sched (initial [succ; returns42] (Some [[PyInt 1]; []]) None) = Some m ->
          exists sched' m',
            exec (sched ++ sched') (initial [succ; returns42] (Some [[PyInt 1]; []]) None)
            = Some m'
            /\ main m' = Done (Returns vs)).
Proof.
  apply (C4_results_in_input_order [succ; returns42] (Some [[PyInt 1]; []]) None).
  - reflexivity.
  - exact I.
  - intros [|[|i]] c a k Hc Ha Hk; simpl in *; try discriminate.
    + injection Hc as <-. injection Ha as <-. exists (PyInt 2). reflexivity.
    + injection Hc as <-. exists (PyInt 42). reflexivity.
Defined.

(** ** C3: a batch in which callables raise *)

(** C3, as stated, fails: in [thread_map([sys.exit, divByZero])] the
    lowest-index failing slot is slot 0, which raised [SystemExit]; the
    call raises the [ZeroDivisionError] of slot 1. *)
Lemma C3_raises_higher_index_failure :
  calls_sys_exit [] [] = Raises SystemExit
  /\ divByZero [] [] = Raises ZeroDivisionError
  /\ thread_map [calls_sys_exit; divByZero] None None = Raises ZeroDivisionError.
Proof. repeat split. Qed.

(** C3, amended: for every batch in which one or more callables raise a
    failure that is an instance of [Exception], [thread_map] raises
    exactly the failure of the lowest-index such slot, the very object
    that was raised, when that failure tests true; whatever the slots at
    higher indices did is not observed.  Every interleaving of the
    workers ends with that failure.  (Slot [j] is the lowest slot whose
    callable raises an instance of [Exception]: a slot below it returns
    or raises a failure that [run] does not capture.) *)
Theorem C3_lowest_index_failure
    (callables : list Callable) (args : option (list (list pyobj)))
    (kwargs : option (list kwdict))
    (j : nat) (c : Callable) (a : list pyobj) (k : kwdict) (e : pyexc) :
  callables !! j = Some c ->
  args_or_default callables args !! j = Some a ->
  kwargs_or_default callables kwargs !! j = Some k ->
  c a k = Raises e ->
  exc_is_Exception e = true ->
  exc_truthy e = true ->
  (forall i c' a' k' e',
     i < j ->
     callables !! i = Some c' ->
     args_or_default callables args !! i = Some a' ->
     kwargs_or_default callables kwargs !! i = Some k' ->
     c' a' k' = Raises e' ->
     exc_is_Exception e' = false) ->
  thread_map callables args kwargs = Raises e
  /\ (forall sched m r,
        exec sched (initial callables args kwargs) = Some m ->
        main m = Done r -> r = Raises e)
  /\ (forall sched m,
        exec sched (initial callables args kwargs) = Some m ->
        exists sched' m',
          exec (sched ++ sched') (initial callables args kwargs) = Some m'
          /\ main m' = Done (Raises e)).
Proof.
  intros Hc Ha Hk He H1 H2 Hlow.
  assert (Hr : thread_map callables args kwargs = Raises e).
  { rewrite thread_map_unfold.
    apply (collect_from_first_raise _ [] j c a k e).
    - apply entries_lookup. auto.
    - apply slot_result_raises; assumption.
    - intros i c' a' k' Hi Hes. apply entries_lookup in Hes as (E1 & E2 & E3).
      unfold slot_result. destruct (c' a' k') as [v|e'] eqn:Hv; [eauto|].
      rewrite (Hlow i c' a' k' e' Hi E1 E2 E3 Hv). simpl. eauto. }
  split; [exact Hr|]. apply thread_map_every_run. exact Hr.
Qed.

Lemma C3_lowest_index_failure_witness :
  thread_map [returns42; calls_sys_exit; divByZero; succ] None None
  = Raises ZeroDivisionError
  /\ (forall sched m r,
        exec sched (initial [returns42; calls_sys_exit; divByZero; succ] None None) = Some m ->
        main m = Done r -> r = Raises ZeroDivisionError)
  /\ (forall sched m,
        exec sched (initial [returns42; calls_sys_exit; divByZero; succ] None None) = Some m ->
        exists sched' m',
          exec (sched ++ sched') (initial [returns42; calls_sys_exit; divByZero; succ] None None)
          = Some m'
          /\ main m' = Done (Raises ZeroDivisionError)).
Proof.
  apply (C3_lowest_index_failure [returns42; calls_sys_exit; divByZero; succ] None None
           2 divByZero [] [] ZeroDivisionError); try reflexivity.
  intros [|[|i]] c' a' k' e' Hi Hc Ha Hk He; [| |lia].
  - simpl in Hc. injection Hc as <-. discriminate.
  - simpl in Hc. injection Hc as <-. injection He as <-. reflexivity.
Defined.

(** ** The order of the main thread's calls *)

(** In every state an interleaving reaches, the main thread has called
    [start] on handles [0..s-1], in that order, and then collected
    handles [0..k-1], in that order; it collects only once it has started
    them all, and it has started them all when the call has ended. *)
Lemma main_events_shape callables args kwargs sched m :
  exec sched (initial callables args kwargs) = Some m ->
  exists s k,
    s <= length (construct callables args kwargs)
    /\ k <= length (construct callables args kwargs)
    /\ main_events (history m) = (EvStart <$> seq 0 s) ++ (EvCollect <$> seq 0 k)
    /\ (0 < k -> s = length (construct callables args kwargs))
    /\ (forall r, main m = Done r -> s = length (construct callables args kwargs)).
Proof.
  intros Hex.
  pose proof (inv_exec callables args kwargs sched _ _
                (inv_initial callables args kwargs) Hex) as (_ & _ & Hpc).
  destruct (main m) as [i|i acc|r].
  - destruct Hpc as (Hi & Hev & _). exists i, 0. rewrite Hev, app_nil_r.
    repeat split; first [assumption | lia | discriminate].
  - destruct Hpc as (Hi & Hev & _).
    exists (length (construct callables args kwargs)), i. rewrite Hev.
    repeat split; first [assumption | lia | discriminate].
  - destruct Hpc as (_ & k & Hk & Hev).
    exists (length (construct callables args kwargs)), k. rewrite Hev.
    repeat split; first [assumption | lia].
Qed.

Lemma main_events_app h1 h2 : main_events (h1 ++ h2) = main_events h1 ++ main_events h2.
Proof. apply List.filter_app. Qed.

(** Whatever precedes a collect in the history contains the [start] of
    every handle below [s]. *)
Lemma starts_precede_collect pre post i s k :
  main_events (pre ++ EvCollect i :: post)
  = (EvStart <$> seq 0 s) ++ (EvCollect <$> seq 0 k) ->
  forall j, j < s -> In (EvStart j) pre.
Proof.
  rewrite main_events_app. cbn [main_events List.filter is_main_event].
  fold (main_events post). intros Heq.
  assert (Hlen : s <= length (main_events pre)).
  { destruct (Nat.le_gt_cases s (length (main_events pre))) as [H|H]; [exact H|].
    pose proof (list_lookup_middle (main_events pre) (main_events post) (EvCollect i)
                  (length (main_events pre)) eq_refl) as Hmid.
    rewrite Heq in Hmid.
    rewrite lookup_app_l in Hmid by (rewrite length_fmap, length_seq; exact H).
    rewrite list_lookup_fmap, lookup_seq_lt in Hmid by exact H. discriminate. }
  intros j Hj.
  assert (Hl : (main_events pre ++ EvCollect i :: main_events post) !! j = Some (EvStart j)).
  { rewrite Heq. rewrite lookup_app_l by (rewrite length_fmap, length_seq; exact Hj).
    rewrite list_lookup_fmap, lookup_seq_lt by exact Hj. reflexivity. }
  rewrite lookup_app_l in Hl by lia.
  apply list_elem_of_lookup_2, list_elem_of_In in Hl.
  apply List.filter_In in Hl. apply Hl.
Qed.

Lemma collect_in_shape i s k :
  In (EvCollect i) ((EvStart <$> seq 0 s) ++ (EvCollect <$> seq 0 k)) -> i < k.
Proof.
  rewrite in_app_iff, <- !list_elem_of_In, !list_elem_of_fmap.
  intros [(j & Hj & _)|(j & Hj & Hin)]; [discriminate|].
  injection Hj as ->. apply elem_of_seq in Hin. lia.
Qed.

Lemma start_in_shape i s k :
  In (EvStart i) ((EvStart <$> seq 0 s) ++ (EvCollect <$> seq 0 k)) -> i < s.
Proof.
  rewrite in_app_iff, <- !list_elem_of_In, !list_elem_of_fmap.
  intros [(j & Hj & Hin)|(j & Hj & _)]; [|discriminate].
  injection Hj as ->. apply elem_of_seq in Hin. lia.
Qed.

Lemma main_event_in h e : is_main_event e = true -> In e h -> In e (main_events h).
Proof. intros He Hin. apply List.filter_In. split; assumption. Qed.

(** ** C7: fan-out before fan-in *)

(** C7: in every interleaving of a call, whatever the order in which
    the workers finish, the main thread's calls are [start] on handles
    [0..s-1] in index order followed by the collection of handles
    [0..k-1] in index order, a collection happening only once all N
    workers have been started: whatever precedes a collection in the
    history contains the [start] of every handle. *)
Theorem C7_start_all_then_collect_in_order
    (callables : list Callable) (args : option (list (list pyobj)))
    (kwargs : option (list kwdict)) (sched : list choice) (m : machine) :
  exec sched (initial callables args kwargs) = Some m ->
  (exists s k,
      s <= length (construct callables args kwargs)
      /\ k <= length (construct callables args kwargs)
      /\ main_events (history m) = (EvStart <$> seq 0 s) ++ (EvCollect <$> seq 0 k)
      /\ (0 < k -> s = length (construct callables args kwargs)))
  /\ (forall pre i post,
        history m = pre ++ EvCollect i :: post ->
        forall j, j < length (construct callables args kwargs) -> In (EvStart j) pre).
Proof.
  intros Hex.
  destruct (main_events_shape callables args kwargs sched m Hex)
    as (s & k & Hs & Hk & Hev & Hall & _).
  split; [exists s, k; auto|].
  intros pre i post Hh j Hj. rewrite Hh in Hev.
  apply (starts_precede_collect pre post i s k Hev).
  rewrite Hall; [exact Hj|].
  cut (i < k); [lia|].
  apply (collect_in_shape i s k). rewrite <- Hev.
  apply main_event_in; [reflexivity|]. apply in_app_iff. right. left. reflexivity.
Qed.

(** Worker 1 finishes before worker 0, and worker 0 only after the main
    thread has begun to wait for it. *)
Lemma C7_start_all_then_collect_in_order_witness :
  exists m,
    exec [Main; Main; Worker 1; Main; Worker 0; Main; Main; Main]
         (initial [returns42; succ] (Some [[]; [PyInt 1]]) None) = Some m
    /\ history m = [EvStart 0; EvStart 1; EvRun 1; EvRun 0; EvCollect 0; EvCollect 1]
    /\ (exists s k,
          s <= 2 /\ k <= 2
          /\ main_events (history m) = (EvStart <$> seq 0 s) ++ (EvCollect <$> seq 0 k)
          /\ (0 < k -> s = 2))
    /\ (forall pre i post,
          history m = pre ++ EvCollect i :: post ->
          forall j, j < 2 -> In (EvStart j) pre).
Proof.
  eexists. split; [reflexivity|]. split; [reflexivity|].
  apply (C7_start_all_then_collect_in_order [returns42; succ] (Some [[]; [PyInt 1]]) None
           [Main; Main; Worker 1; Main; Worker 0; Main; Main; Main]).
  reflexivity.
Defined.

(** ** C2 and C10: sequences of different lengths *)

Lemma construct_length_le callables args kwargs :
  length (construct callables args kwargs) <= length callables.
Proof. rewrite construct_length. lia. Qed.

Lemma initial_truncated callables args kwargs :
  let m := length (construct callables args kwargs) in
  initial (take m callables)
          (Some (take m (args_or_default callables args)))
          (Some (take m (kwargs_or_default callables kwargs)))
  = initial callables args kwargs.
Proof.
  intros m. unfold initial. f_equal. apply construct_truncated.
Qed.

Lemma thread_map_truncated callables args kwargs :
  let m := length (construct callables args kwargs) in
  thread_map (take m callables)
             (Some (take m (args_or_default callables args)))
             (Some (take m (kwargs_or_default callables kwargs)))
  = thread_map callables args kwargs.
Proof.
  intros m. unfold thread_map. f_equal. f_equal. apply construct_truncated.
Qed.

(** The events of a call only ever concern the handles it built. *)
Lemma events_below_length callables args kwargs sched m :
  exec sched (initial callables args kwargs) = Some m ->
  length (threads m) = length (construct callables args kwargs)
  /\ forall ev, In ev (history m) ->
       match ev with
       | EvStart j | EvRun j | EvCollect j => j < length (construct callables args kwargs)
       end.
Proof.
  intros Hex.
  pose proof (inv_exec callables args kwargs sched _ _
                (inv_initial callables args kwargs) Hex) as (Hlen & Hran & _).
  destruct (main_events_shape callables args kwargs sched m Hex)
    as (s & k & Hs & Hk & Hev & _).
  split; [exact Hlen|]. intros [j|j|j] Hin.
  - apply (main_event_in _ (EvStart j) eq_refl) in Hin. rewrite Hev in Hin.
    apply start_in_shape in Hin. lia.
  - apply Hran. unfold ran. apply list_elem_of_In, list_elem_of_omap.
    exists (EvRun j). split; [apply list_elem_of_In; exact Hin|reflexivity].
  - apply (main_event_in _ (EvCollect j) eq_refl) in Hin. rewrite Hev in Hin.
    apply collect_in_shape in Hin. lia.
Qed.

(** What a call that has ended yields: a list with one value per handle
    built, or the failure one of their callables raised. *)
Lemma thread_map_result_cases callables args kwargs :
  (exists vs, thread_map callables args kwargs = Returns vs
              /\ length vs = length (construct callables args kwargs))
  \/ (exists j c a k e,
        callables !! j = Some c
        /\ args_or_default callables args !! j = Some a
        /\ kwargs_or_default callables kwargs !! j = Some k
        /\ c a k = Raises e
        /\ thread_map callables args kwargs = Raises e).
Proof.
  rewrite thread_map_unfold.
  destruct (collect_from_cases (entries callables args kwargs) [])
    as [(vs & Hc & Hl)|(j & c & a & k & e & Hj & He & Hc)].
  - left. exists vs. split; [exact Hc|]. unfold construct. rewrite length_fmap. exact Hl.
  - right. exists j, c, a, k, e. apply entries_lookup in Hj as (H1 & H2 & H3).
    apply slot_result_raises_inv in He as (He & _). auto.
Qed.

(** C2, as stated, fails: [thread_map([succ, returns42], args=[(1,)])]
    raises nothing at entry; it starts the worker of slot 0, which calls
    [succ(1)], and returns [[2]]. *)
Lemma C2_no_length_check :
  length [[PyInt 1]] <> length [succ; returns42]
  /\ thread_map [succ; returns42] (Some [[PyInt 1]]) None = Returns [PyInt 2]
  /\ exists m,
       exec [Main; Worker 0; Main; Main; Main]
            (initial [succ; returns42] (Some [[PyInt 1]]) None) = Some m
       /\ history m = [EvStart 0; EvRun 0; EvCollect 0]
       /\ main m = Done (Returns [PyInt 2]).
Proof.
  split; [discriminate|]. split; [reflexivity|].
  eexists. repeat split.
Qed.

(** C2, amended: for every call of [thread_map] where [args] (or
    [kwargs]) is supplied with a length different from that of
    [callables], no length is checked and no error is raised at entry:
    the call builds one handle for each of the first
    m = min(len(callables), len(args), len(kwargs)) entries and proceeds
    exactly as the call on the three sequences cut to m entries; when it
    has ended, it has started those m workers. *)
Theorem C2_proceeds_on_shortest
    (callables : list Callable) (args : option (list (list pyobj)))
    (kwargs : option (list kwdict)) :
  (exists a, args = Some a /\ length a <> length callables)
  \/ (exists k, kwargs = Some k /\ length k <> length callables) ->
  let m := length callables
             `min` (length (args_or_default callables args)
                      `min` length (kwargs_or_default callables kwargs)) in
  length (construct callables args kwargs) = m
  /\ initial callables args kwargs
     = initial (take m callables)
               (Some (take m (args_or_default callables args)))
               (Some (take m (kwargs_or_default callables kwargs)))
  /\ thread_map callables args kwargs
     = thread_map (take m callables)
                  (Some (take m (args_or_default callables args)))
                  (Some (take m (kwargs_or_default callables kwargs)))
  /\ (forall sched mach r,
        exec sched (initial callables args kwargs) = Some mach ->
        main mach = Done r ->
        r = thread_map callables args kwargs
        /\ exists k, k <= m
             /\ main_events (history mach)
                = (EvStart <$> seq 0 m) ++ (EvCollect <$> seq 0 k))
  /\ (forall sched mach,
        exec sched (initial callables args kwargs) = Some mach ->
        exists sched' mach',
          exec (sched ++ sched') (initial callables args kwargs) = Some mach'
          /\ main mach' = Done (thread_map callables args kwargs)).
Proof.
  intros _ m. pose proof (construct_length callables args kwargs) as Hm. fold m in Hm.
  split; [exact Hm|]. split.
  { rewrite <- Hm. symmetry. apply initial_truncated. }
  split.
  { rewrite <- Hm. symmetry. apply thread_map_truncated. }
  split.
  - intros sched mach r Hex Hdone.
    split; [exact (thread_map_sound callables args kwargs sched mach r Hex Hdone)|].
    destruct (main_events_shape callables args kwargs sched mach Hex)
      as (s & k & Hs & Hk & Hev & _ & Hend).
    rewrite (Hend r Hdone), Hm in Hev. exists k. split; [lia|exact Hev].
  - intros sched mach. apply thread_map_completes.
Qed.

Lemma C2_proceeds_on_shortest_witness :
  length (construct [succ; returns42] (Some [[PyInt 1]]) None) = 1
  /\ initial [succ; returns42] (Some [[PyInt 1]]) None
     = initial [succ] (Some [[PyInt 1]]) (Some [[]])
  /\ thread_map [succ; returns42] (Some [[PyInt 1]]) None
     = thread_map [succ] (Some [[PyInt 1]]) (Some [[]])
  /\ (forall sched mach r,
        exec sched (initial [succ; returns42] (Some [[PyInt 1]]) None) = Some mach ->
        main mach = Done r ->
        r = thread_map [succ; returns42] (Some [[PyInt 1]]) None
        /\ exists k, k <= 1
             /\ main_events (history mach)
                = (EvStart <$> seq 0 1) ++ (EvCollect <$> seq 0 k))
  /\ (forall sched mach,
        exec sched (initial [succ; returns42] (Some [[PyInt 1]]) None) = Some mach ->
        exists sched' mach',
          exec (sched ++ sched') (initial [succ; returns42] (Some [[PyInt 1]]) None)
          = Some mach'
          /\ main mach' = Done (thread_map [succ; returns42] (Some [[PyInt 1]]) None)).
Proof.
  apply (C2_proceeds_on_shortest [succ; returns42] (Some [[PyInt 1]]) None).
  left. exists [[PyInt 1]]. split; [reflexivity|discriminate].
Defined.

(** C10, as stated, fails: with [args] shorter than [callables] the
    call still raises when one of the tasks it does run fails;
    [thread_map([divByZero, returns42], args=[()])] raises
    [ZeroDivisionError] and returns no list. *)
Lemma C10_short_args_can_raise :
  length [([] : list pyobj)] < length [divByZero; returns42]
  /\ thread_map [divByZero; returns42] (Some [[]]) None = Raises ZeroDivisionError.
Proof. split; [simpl; lia|reflexivity]. Qed.

(** C10, amended: for every call of [thread_map] where [args] or
    [kwargs] is supplied shorter than [callables], the call raises no
    error of its own: it builds, starts, runs and collects only the first
    m = min(len(callables), len(args), len(kwargs)) tasks, m being less
    than len(callables); the callables from index m on are never
    executed; and the call ends either returning a list of length m or
    raising the failure that one of the first m callables raised. *)
Theorem C10_short_sequences_truncate
    (callables : list Callable) (args : option (list (list pyobj)))
    (kwargs : option (list kwdict)) :
  (exists a, args = Some a /\ length a < length callables)
  \/ (exists k, kwargs = Some k /\ length k < length callables) ->
  let m := length callables
             `min` (length (args_or_default callables args)
                      `min` length (kwargs_or_default callables kwargs)) in
  m < length callables
  /\ length (construct callables args kwargs) = m
  /\ (forall sched mach,
        exec sched (initial callables args kwargs) = Some mach ->
        length (threads mach) = m
        /\ (forall ev, In ev (history mach) ->
              match ev with EvStart j | EvRun j | EvCollect j => j < m end)
        /\ (forall r, main mach = Done r ->
              match r with
              | Returns vs => length vs = m
              | Raises e =>
                  exists j c a k,
                    j < m
                    /\ callables !! j = Some c
                    /\ args_or_default callables args !! j = Some a
                    /\ kwargs_or_default callables kwargs !! j = Some k
                    /\ c a k = Raises e
              end)
        /\ exists sched' mach' r,
             exec (sched ++ sched') (initial callables args kwargs) = Some mach'
             /\ main mach' = Done r).
Proof.
  intros Hshort m. pose proof (construct_length callables args kwargs) as Hm. fold m in Hm.
  split.
  { subst m. destruct Hshort as [(a & -> & Ha)|(k & -> & Hk)];
      cbn [args_or_default kwargs_or_default]; lia. }
  split; [exact Hm|].
  intros sched mach Hex.
  destruct (events_below_length callables args kwargs sched mach Hex) as [Hlen Hev].
  rewrite Hm in Hlen, Hev. split; [exact Hlen|]. split; [exact Hev|]. split.
  - intros r Hdone.
    rewrite (thread_map_sound callables args kwargs sched mach r Hex Hdone).
    destruct (thread_map_result_cases callables args kwargs)
      as [(vs & -> & Hl)|(j & c & a & k & e & H1 & H2 & H3 & He & ->)].
    + rewrite Hl. exact Hm.
    + exists j, c, a, k. repeat split; try assumption.
      apply lookup_lt_Some in H1, H2, H3. subst m.
      apply Nat.min_glb_lt; [exact H1|apply Nat.min_glb_lt; [exact H2|exact H3]].
  - destruct (thread_map_completes callables args kwargs sched mach Hex)
      as (sched' & mach' & Hex' & Hdone).
    exists sched', mach', (thread_map callables args kwargs). split; assumption.
Qed.

Lemma C10_short_sequences_truncate_witness :
  1 < 2
  /\ length (construct [succ; returns42] (Some [[PyInt 1]]) None) = 1
  /\ (forall sched mach,
        exec sched (initial [succ; returns42] (Some [[PyInt 1]]) None) = Some mach ->
        length (threads mach) = 1
        /\ (forall ev, In ev (history mach) ->
              match ev with EvStart j | EvRun j | EvCollect j => j < 1 end)
        /\ (forall r, main mach = Done r ->
              match r with
              | Returns vs => length vs = 1
              | Raises e =>
                  exists j c a k,
                    j < 1
                    /\ [succ; returns42] !! j = Some c
                    /\ [[PyInt 1]] !! j = Some a
                    /\ [([] : kwdict); []] !! j = Some k
                    /\ c a k = Raises e
              end)
        /\ exists sched' mach' r,
             exec (sched ++ sched') (initial [succ; returns42] (Some [[PyInt 1]]) None)
             = Some mach'
             /\ main mach' = Done r).
Proof.
  apply (C10_short_sequences_truncate [succ; returns42] (Some [[PyInt 1]]) None).
  left. exists [[PyInt 1]]. split; [reflexivity|simpl; lia].
Defined.

(** ** [Link] *)

(** C6: the constructor is meant to raise exactly when [head] or [tail]
    is not a canonical 36-character identifier, and [validate_node]'s
    docstring says so ("validate that the guid given is a valid guid");
    the code misses one case.  [_guid_pattern] ends in [$], which also
    matches just before a newline that ends the string, so a canonical
    identifier followed by a line feed, 37 characters long, is accepted
    as [head] (or [tail]) and stored as given. *)
Theorem C6_trailing_newline_accepted :
  let guid := "aaaaaaaa-aaaa-aaaa-aaaa-aaaaaaaaaaaa"%string in
  let head := (guid ++ String "010" EmptyString)%string in
  links.canonical_guid guid = true
  /\ String.length head = 37
  /\ links.canonical_guid head = false
  /\ links.validate_node head "head" = Returns tt
  /\ links.new head guid "edge" None
     = Returns (links.mkLink head guid "edge" EmptyString).
Proof. repeat split. Qed.

(** * Further properties of the code *)

(** ** [RespondingThread.output] on a finished handle *)





(** ** What [thread_map] returns and raises, in general *)

Lemma collect_from_raises_inv es : forall acc e,
  collect_from acc (handles es) = Raises e ->
  exists j c a k,
    es !! j = Some (c, a, k)
    /\ slot_result c a k = Raises e
    /\ forall i c' a' k', i < j -> es !! i = Some (c', a', k') ->
         exists v, slot_result c' a' k' = Returns v.
Proof.
  induction es as [|[[c a] k] es IH]; intros acc e H.
  - discriminate.
  - rewrite collect_from_cons in H. destruct (slot_result c a k) as [v|e'] eqn:Hs.
    + destruct (IH _ _ H) as (j & c' & a' & k' & Hj & He & Hlow).
      exists (S j), c', a', k'. split; [exact Hj|]. split; [exact He|].
      intros [|i] c2 a2 k2 Hi H2; simpl in H2.
      * injection H2 as <- <- <-. eauto.
      * apply (Hlow i); [lia|exact H2].
    + injection H as <-. exists 0, c, a, k. split; [reflexivity|]. split; [exact Hs|].
      intros i c' a' k' Hi. lia.
Qed.

(** When no callable raises a failure that [run] captures and [output]
    re-raises, [thread_map] returns one element per task built: the
    value the callable returned, and [None] for a callable whose failure
    was not captured or tests false. *)
Theorem thread_map_returns_slot_values
    (callables : list Callable) (args : option (list (list pyobj)))
    (kwargs : option (list kwdict)) :
  (forall i c a k e,
     callables !! i = Some c ->
     args_or_default callables args !! i = Some a ->
     kwargs_or_default callables kwargs !! i = Some k ->
     c a k = Raises e ->
     exc_is_Exception e && exc_truthy e = false) ->
  exists vs,
    thread_map callables args kwargs = Returns vs
    /\ length vs = length (construct callables args kwargs)
    /\ forall i c a k,
         callables !! i = Some c ->
         args_or_default callables args !! i = Some a ->
         kwargs_or_default callables kwargs !! i = Some k ->
         vs !! i = Some (match c a k with Returns v => v | Raises _ => PyNone end).
Proof.
  intros Hno.
  destruct (collect_from_all_return (entries callables args kwargs) []) as (vs & Hc & Hl & Hvs).
  { intros i c a k Hi. apply entries_lookup in Hi as (H1 & H2 & H3).
    unfold slot_result. destruct (c a k) as [v|e] eqn:Hv; [eauto|].
    rewrite (Hno i c a k e H1 H2 H3 Hv). eauto. }
  exists vs. rewrite thread_map_unfold. split; [exact Hc|]. split.
  { unfold construct. rewrite length_fmap. exact Hl. }
  intros i c a k H1 H2 H3.
  destruct (Hvs i c a k) as (v & Hv & Hi); [apply entries_lookup; auto|].
  rewrite Hi. f_equal. unfold slot_result in Hv.
  destruct (c a k) as [v'|e] eqn:Hcak.
  - congruence.
  - rewrite (Hno i c a k e H1 H2 H3 Hcak) in Hv. congruence.
Qed.

Lemma thread_map_returns_slot_values_witness :
  exists vs,
    thread_map [calls_sys_exit; returns42; raises_falsy] None None = Returns vs
    /\ length vs = length (construct [calls_sys_exit; returns42; raises_falsy] None None)
    /\ forall i c a k,
         [calls_sys_exit; returns42; raises_falsy] !! i = Some c ->
         [([] : list pyobj); []; []] !! i = Some a ->
         [([] : kwdict); []; []] !! i = Some k ->
         vs !! i = Some (match c a k with Returns v => v | Raises _ => PyNone end).
Proof.
  apply (thread_map_returns_slot_values [calls_sys_exit; returns42; raises_falsy] None None).
  intros [|[|[|i]]] c a k e Hc Ha Hk He; simpl in Hc; try discriminate;
    injection Hc as <-; try discriminate; injection He as <-; reflexivity.
Defined.

(** [thread_map] raises nothing of its own: a failure it raises was
    raised by one of the callables it ran, is an instance of [Exception]
    and tests true, and no slot before it raised such a failure. *)
Theorem thread_map_raises_only_callable_failures
    (callables : list Callable) (args : option (list (list pyobj)))
    (kwargs : option (list kwdict)) (e : pyexc) :
  thread_map callables args kwargs = Raises e ->
  exists j c a k,
    callables !! j = Some c
    /\ args_or_default callables args !! j = Some a
    /\ kwargs_or_default callables kwargs !! j = Some k
    /\ c a k = Raises e
    /\ exc_is_Exception e = true
    /\ exc_truthy e = true
    /\ forall i c' a' k' e',
         i < j ->
         callables !! i = Some c' ->
         args_or_default callables args !! i = Some a' ->
         kwargs_or_default callables kwargs !! i = Some k' ->
         c' a' k' = Raises e' ->
         exc_is_Exception e' && exc_truthy e' = false.
Proof.
  rewrite thread_map_unfold. intros H.
  destruct (collect_from_raises_inv _ _ _ H) as (j & c & a & k & Hj & He & Hlow).
  apply entries_lookup in Hj as (H1 & H2 & H3).
  apply slot_result_raises_inv in He as (He & Hx & Ht).
  exists j, c, a, k. repeat split; try assumption.
  intros i c' a' k' e' Hi E1 E2 E3 He'.
  destruct (Hlow i c' a' k' Hi) as [v Hv]; [apply entries_lookup; auto|].
  unfold slot_result in Hv. rewrite He' in Hv.
  destruct (exc_is_Exception e' && exc_truthy e'); [discriminate|reflexivity].
Qed.

Lemma thread_map_raises_only_callable_failures_witness :
  exists j c a k,
    [returns42; divByZero] !! j = Some c
    /\ [([] : list pyobj); []] !! j = Some a
    /\ [([] : kwdict); []] !! j = Some k
    /\ c a k = Raises ZeroDivisionError
    /\ exc_is_Exception ZeroDivisionError = true
    /\ exc_truthy ZeroDivisionError = true
    /\ forall i c' a' k' e',
         i < j ->
         [returns42; divByZero] !! i = Some c' ->
         [([] : list pyobj); []] !! i = Some a' ->
         [([] : kwdict); []] !! i = Some k' ->
         c' a' k' = Raises e' ->
         exc_is_Exception e' && exc_truthy e' = false.
Proof.
  apply (thread_map_raises_only_callable_failures [returns42; divByZero] None None).
  reflexivity.
Defined.

(** An empty sequence among the three makes the call a no-op: it
    returns the empty list and, in every interleaving, no handle is
    started, run or collected. *)
Theorem thread_map_empty_sequence
    (callables : list Callable) (args : option (list (list pyobj)))
    (kwargs : option (list kwdict)) (sched : list choice) (m : machine) :
  callables = [] \/ args = Some [] \/ kwargs = Some [] ->
  exec sched (initial callables args kwargs) = Some m ->
  thread_map callables args kwargs = Returns []
  /\ threads m = []
  /\ history m = [].
Proof.
  intros Hempty Hex.
  assert (Hn : construct callables args kwargs = []).
  { apply length_zero_iff_nil. rewrite construct_length.
    destruct Hempty as [->|[->| ->]]; simpl; lia. }
  split; [unfold thread_map; rewrite Hn; reflexivity|].
  destruct (events_below_length callables args kwargs sched m Hex) as [Hlen Hev].
  rewrite Hn in Hlen, Hev. simpl in Hlen, Hev.
  split; [apply length_zero_iff_nil; exact Hlen|].
  destruct (history m) as [|ev h]; [reflexivity|].
  specialize (Hev ev (or_introl eq_refl)). destruct ev; lia.
Qed.

Lemma thread_map_empty_sequence_witness :
  exists m,
    exec [Main; Main] (initial [returns42; divByZero] (Some []) None) = Some m
    /\ thread_map [returns42; divByZero] (Some []) None = Returns []
    /\ threads m = []
    /\ history m = [].
Proof.
  eexists. split; [reflexivity|].
  apply (thread_map_empty_sequence [returns42; divByZero] (Some []) None [Main; Main]);
    [right; left; reflexivity|reflexivity].
Defined.

(** ** No deadlock, no endless run *)

Lemma measure_initial callables args kwargs :
  measure (initial callables args kwargs)
  = 4 * length (construct callables args kwargs) + 3.
Proof.
  unfold measure, initial. cbn [threads main pc_measure].
  assert (H : forall ts : list RespondingThread,
             (forall j t, ts !! j = Some t -> life t = NotStarted) ->
             sum_list (weight <$> ts) = 2 * length ts).
  { induction ts as [|t ts IH]; intros Hf; [reflexivity|].
    change (weight t + sum_list (weight <$> ts) = 2 * S (length ts)).
    rewrite IH by (intros j t' Hj; apply (Hf (S j)); exact Hj).
    unfold weight. rewrite (Hf 0 t eq_refl). lia. }
  rewrite H by apply construct_fresh. lia.
Qed.

(** A call never deadlocks and never runs for ever: in every state an
    interleaving reaches, the call has ended or some thread can move (the
    main thread only ever waits for a worker that is still running), and
    an interleaving has at most 4 N + 3 moves, N being the number of
    handles built. *)
Theorem thread_map_never_stuck
    (callables : list Callable) (args : option (list (list pyobj)))
    (kwargs : option (list kwdict)) (sched : list choice) (m : machine) :
  exec sched (initial callables args kwargs) = Some m ->
  ((exists r, main m = Done r) \/ (exists c m', step c m = Some m'))
  /\ length sched <= 4 * length (construct callables args kwargs) + 3.
Proof.
  intros Hex. split.
  - apply (inv_progress callables args kwargs).
    exact (inv_exec callables args kwargs sched _ _ (inv_initial callables args kwargs) Hex).
  - apply exec_measure in Hex. rewrite measure_initial in Hex. lia.
Qed.

Lemma thread_map_never_stuck_witness :
  exists m,
    exec [Main; Main; Worker 1; Main] (initial [returns42; divByZero] None None) = Some m
    /\ ((exists r, main m = Done r) \/ (exists c m', step c m = Some m'))
    /\ length [Main; Main; Worker 1; Main]
       <= 4 * length (construct [returns42; divByZero] None None) + 3.
Proof.
  eexists. split; [reflexivity|].
  apply (thread_map_never_stuck [returns42; divByZero] None None [Main; Main; Worker 1; Main]).
  reflexivity.
Defined.

(** ** Each callable is executed at most once *)

Lemma ran_snoc_eq h e :
  ran (h ++ [e]) = ran h ++ match e with EvRun i => [i] | _ => [] end.
Proof. unfold ran. rewrite omap_app. destruct e; reflexivity. Qed.

Lemma inv_starting_fresh callables args kwargs m i t :
  inv callables args kwargs m -> main m = Starting i -> threads m !! i = Some t ->
  life t = NotStarted.
Proof.
  intros (Hlen & _ & Hpc) Hm Ht. rewrite Hm in Hpc. destruct Hpc as (_ & _ & Hts).
  assert (Hin : i < length (construct callables args kwargs)).
  { apply lookup_lt_Some in Ht. lia. }
  destruct (lookup_lt_is_Some_2 _ i Hin) as [t0 Ht0].
  destruct (Hts i t0 Ht0) as (t' & Ht' & Hok). rewrite Ht in Ht'. injection Ht' as <-.
  unfold thread_ok in Hok. destruct (decide (i < i)); [lia|]. subst t.
  exact (construct_fresh callables args kwargs i t0 Ht0).
Qed.

Lemma inv_collecting_started callables args kwargs m i acc t :
  inv callables args kwargs m -> main m = Collecting i acc -> threads m !! i = Some t ->
  life t <> NotStarted.
Proof.
  intros (Hlen & _ & Hpc) Hm Ht. rewrite Hm in Hpc. destruct Hpc as (_ & _ & _ & Hts).
  assert (Hin : i < length (construct callables args kwargs)).
  { apply lookup_lt_Some in Ht. lia. }
  destruct (lookup_lt_is_Some_2 _ i Hin) as [t0 Ht0].
  destruct (Hts i t0 Ht0 (Nat.le_refl i)) as (t' & Ht' & Hok).
  rewrite Ht in Ht'. injection Ht' as <-.
  pose proof (construct_fresh callables args kwargs i t0 Ht0) as Hf.
  destruct Hok as [-> | ->].
  - rewrite (proj2 (start_NotStarted t0 Hf)). discriminate.
  - discriminate.
Qed.

Lemma runs_ok_initial callables args kwargs : runs_ok (initial callables args kwargs).
Proof.
  split; [apply NoDup_nil_2|]. split.
  - intros j t Ht. simpl. split; [|intros []].
    intros Hl. rewrite (construct_fresh callables args kwargs j t Ht) in Hl. discriminate.
  - split.
    + intros j t Ht Hl. destruct Hl. exact (construct_fresh callables args kwargs j t Ht).
    + repeat split; simpl; intros i [].
Qed.

Lemma runs_ok_step callables args kwargs c m m' :
  inv callables args kwargs m -> runs_ok m -> step c m = Some m' -> runs_ok m'.
Proof.
  intros Hinv (Hnd & Hfin & Hst & Hcol & Hrs & Hpc) Hs.
  destruct c as [|j]; simpl in Hs.
  - destruct (main m) as [i|i acc|r] eqn:Hm; [| |discriminate].
    + destruct (threads m !! i) as [t|] eqn:Ht.
      * pose proof (inv_starting_fresh _ _ _ m i t Hinv Hm Ht) as Hl.
        pose proof (lookup_lt_Some _ _ _ Ht) as Hlt.
        unfold start in Hs. rewrite Hl in Hs. injection Hs as <-.
        unfold runs_ok. cbn [threads main history]. rewrite ran_snoc_eq, app_nil_r.
        split; [exact Hnd|]. split.
        { intros j t' Hj. destruct (decide (j = i)) as [->|Hne].
          - rewrite list_lookup_insert_eq in Hj by exact Hlt. injection Hj as <-.
            split; [discriminate|]. intros Hin. apply (Hfin i t Ht) in Hin. congruence.
          - rewrite list_lookup_insert_ne in Hj by auto. apply (Hfin j t' Hj). }
        split.
        { intros j t' Hj Hns. apply in_app_iff. destruct (decide (j = i)) as [->|Hne].
          - right. left. reflexivity.
          - rewrite list_lookup_insert_ne in Hj by auto. left. apply (Hst j t' Hj Hns). }
        split.
        { intros x Hx. apply in_app_iff in Hx as [Hx|[Hx|[]]]; [auto|discriminate]. }
        split; [|exact I].
        intros x Hx. apply in_app_iff. left. auto.
      * injection Hs as <-. unfold runs_ok. cbn [threads main history].
        repeat split; try assumption; try apply Hfin; auto. intros j Hj. lia.
    + destruct (threads m !! i) as [t|] eqn:Ht.
      * pose proof (inv_collecting_started _ _ _ m i acc t Hinv Hm Ht) as Hns.
        pose proof (lookup_lt_Some _ _ _ Ht) as Hlt.
        destruct (output None t) as [[t' o]|] eqn:Ho; [|discriminate].
        assert (Hlf : life t = Finished).
        { unfold output, join in Ho. destruct (life t); [congruence|discriminate|reflexivity]. }
        apply output_keeps_output in Ho as [_ Hl'].
        assert (Hrest : forall main',
                  match main' with
                  | Starting _ => True
                  | Collecting i' _ => i' = S i
                  | Done (Returns _) => False
                  | Done (Raises _) => True
                  end ->
                  runs_ok (mkMachine (<[i:=t']> (threads m)) main'
                                     (history m ++ [EvCollect i]))).
        { intros main' Hmain'. unfold runs_ok. cbn [threads main history].
          rewrite ran_snoc_eq, app_nil_r.
          split; [exact Hnd|]. split.
          { intros j t2 Hj. destruct (decide (j = i)) as [->|Hne].
            - rewrite list_lookup_insert_eq in Hj by exact Hlt. injection Hj as <-.
              rewrite Hl'. apply (Hfin i t Ht).
            - rewrite list_lookup_insert_ne in Hj by auto. apply (Hfin j t2 Hj). }
          split.
          { intros j t2 Hj Hn2. apply in_app_iff. left.
            destruct (decide (j = i)) as [->|Hne].
            - apply (Hst i t Ht Hns).
            - rewrite list_lookup_insert_ne in Hj by auto. apply (Hst j t2 Hj Hn2). }
          split.
          { intros x Hx. apply in_app_iff in Hx as [Hx|[Hx|[]]]; [auto|].
            injection Hx as <-. apply (Hfin i t Ht). exact Hlf. }
          split; [intros x Hx; apply in_app_iff; left; auto|].
          destruct main' as [i'|i' acc'|[vs|e]]; try exact I; [|destruct Hmain'].
          subst i'. intros j Hj. apply in_app_iff.
          destruct (decide (j = i)) as [->|Hne]; [right; left; reflexivity|].
          left. apply Hpc. lia. }
        destruct o as [v|e]; injection Hs as <-; apply Hrest; [reflexivity|exact I].
      * injection Hs as <-. unfold runs_ok. cbn [threads main history].
        repeat split; try assumption; try apply Hfin; auto.
        intros j Hj. apply Hpc. apply lookup_ge_None in Ht. lia.
  - destruct (threads m !! j) as [t|] eqn:Ht; [|discriminate].
    destruct (life t) eqn:Hl; try discriminate. injection Hs as <-.
    pose proof (lookup_lt_Some _ _ _ Ht) as Hlt.
    assert (Hnot : ~ In j (ran (history m))).
    { intros Hin. apply (Hfin j t Ht) in Hin. congruence. }
    unfold runs_ok. cbn [threads main history]. rewrite ran_snoc_eq.
    split.
    { apply NoDup_app. split; [exact Hnd|]. split; [|apply NoDup_singleton].
      intros x Hx Hx'. apply list_elem_of_In in Hx. apply list_elem_of_singleton in Hx'.
      subst x. contradiction. }
    split.
    { intros x t2 Hx. rewrite in_app_iff. destruct (decide (x = j)) as [->|Hne].
      - rewrite list_lookup_insert_eq in Hx by exact Hlt. injection Hx as <-.
        split; [intros _; right; left; reflexivity|reflexivity].
      - rewrite list_lookup_insert_ne in Hx by auto.
        rewrite (Hfin x t2 Hx). split; [auto|]. intros [H|[H|[]]]; [exact H|congruence]. }
    split.
    { intros x t2 Hx Hn2. apply in_app_iff. left. destruct (decide (x = j)) as [->|Hne].
      - apply (Hst j t Ht). congruence.
      - rewrite list_lookup_insert_ne in Hx by auto. apply (Hst x t2 Hx Hn2). }
    split.
    { intros x Hx. apply in_app_iff in Hx as [Hx|[Hx|[]]]; [|discriminate].
      apply in_app_iff. left. auto. }
    split.
    { intros x Hx. apply in_app_iff. left. apply in_app_iff in Hx as [Hx|[Hx|[]]]; [auto|].
      subst x. apply (Hst j t Ht). congruence. }
    destruct (main m) as [i|i acc|[vs|e]]; try exact I.
    + intros x Hx. apply in_app_iff. left. auto.
    + rewrite length_insert. intros x Hx. apply in_app_iff. left. auto.
Qed.

Lemma runs_ok_exec callables args kwargs sched : forall m m',
  inv callables args kwargs m -> runs_ok m -> exec sched m = Some m' -> runs_ok m'.
Proof.
  induction sched as [|c sched IH]; intros m m' Hinv Hok Hex; simpl in Hex.
  - injection Hex as <-. exact Hok.
  - destruct (step c m) as [m1|] eqn:Hs; [|discriminate].
    apply (IH m1 m'); [eapply inv_step; eassumption| |exact Hex].
    eapply runs_ok_step; eassumption.
Qed.

(** The history only ever grows, one event at a time. *)
Lemma step_history c m m' :
  step c m = Some m' -> history m' = history m \/ exists e, history m' = history m ++ [e].
Proof.
  intros Hs. destruct c as [|j]; simpl in Hs.
  - destruct (main m) as [i|i acc|r]; [| |discriminate].
    + destruct (threads m !! i) as [t|]; [|injection Hs as <-; left; reflexivity].
      destruct (start t) as [t' [[]|e]]; injection Hs as <-; right; eexists; reflexivity.
    + destruct (threads m !! i) as [t|]; [|injection Hs as <-; left; reflexivity].
      destruct (output None t) as [[t' [v|e]]|]; [| |discriminate];
        injection Hs as <-; right; eexists; reflexivity.
  - destruct (threads m !! j) as [t|]; [|discriminate].
    destruct (life t); try discriminate. injection Hs as <-. right. eexists. reflexivity.
Qed.

Lemma exec_history sched : forall m m',
  exec sched m = Some m' -> exists ext, history m' = history m ++ ext.
Proof.
  induction sched as [|c sched IH]; intros m m' Hex; simpl in Hex.
  - injection Hex as <-. exists []. rewrite app_nil_r. reflexivity.
  - destruct (step c m) as [m1|] eqn:Hs; [|discriminate].
    destruct (IH _ _ Hex) as [ext Hext].
    destruct (step_history _ _ _ Hs) as [H|[e H]]; rewrite H in Hext.
    + exists ext. exact Hext.
    + exists (e :: ext). rewrite <- app_assoc in Hext. exact Hext.
Qed.

(** Every prefix of a history is the history of an earlier state of the
    same interleaving. *)
Lemma exec_prefix sched : forall m0 m pre post,
  exec sched m0 = Some m ->
  history m = pre ++ post ->
  length (history m0) <= length pre ->
  exists sched' m', exec sched' m0 = Some m' /\ history m' = pre.
Proof.
  induction sched as [|c sched IH]; intros m0 m pre post Hex Hh Hlen; simpl in Hex.
  - injection Hex as <-. exists [], m0. split; [reflexivity|].
    assert (Hl : length (history m0) = length pre + length post)
      by (rewrite Hh, length_app; reflexivity).
    assert (Hp : post = []) by (apply length_zero_iff_nil; lia).
    rewrite Hp, app_nil_r in Hh. exact Hh.
  - destruct (step c m0) as [m1|] eqn:Hs; [|discriminate].
    destruct (Nat.le_gt_cases (length (history m1)) (length pre)) as [Hle|Hgt].
    + destruct (IH m1 m pre post Hex Hh Hle) as (s' & m' & Hex' & Hm').
      exists (c :: s'), m'. split; [simpl; rewrite Hs; exact Hex'|exact Hm'].
    + exists [], m0. split; [reflexivity|].
      destruct (exec_history _ _ _ Hex) as [ext Hext].
      destruct (step_history _ _ _ Hs) as [H|[e H]]; rewrite H in Hgt; [lia|].
      rewrite length_app in Hgt. simpl in Hgt.
      rewrite H, Hh, <- app_assoc in Hext.
      apply app_inj_1 in Hext as [Hpre _]; [symmetry; exact Hpre|lia].
Qed.

(** In every interleaving of a call no callable is executed twice; a
    callable is executed only after its handle was started; a handle is
    collected only after its callable was executed; and a call that
    returns a list has executed every callable it built a handle for. *)
Theorem each_callable_runs_at_most_once
    (callables : list Callable) (args : option (list (list pyobj)))
    (kwargs : option (list kwdict)) (sched : list choice) (m : machine) :
  exec sched (initial callables args kwargs) = Some m ->
  NoDup (ran (history m))
  /\ (forall pre i post, history m = pre ++ EvRun i :: post ->
        In (EvStart i) pre /\ ~ In i (ran pre))
  /\ (forall pre i post, history m = pre ++ EvCollect i :: post -> In i (ran pre))
  /\ (forall vs, main m = Done (Returns vs) ->
        forall i, i < length (construct callables args kwargs) ->
          In i (ran (history m))).
Proof.
  intros Hex.
  pose proof (inv_initial callables args kwargs) as Hinv0.
  pose proof (runs_ok_initial callables args kwargs) as Hok0.
  pose proof (runs_ok_exec _ _ _ sched _ _ Hinv0 Hok0 Hex) as (Hnd & _ & _ & Hcol & _ & Hpc).
  assert (Hpre : forall pre post, history m = pre ++ post ->
            exists m', runs_ok m' /\ history m' = pre).
  { intros pre post Hh.
    destruct (exec_prefix sched _ m pre post Hex Hh) as (s' & m' & Hex' & Hm');
      [simpl; lia|].
    exists m'. split; [|exact Hm'].
    exact (runs_ok_exec _ _ _ s' _ _ Hinv0 Hok0 Hex'). }
  split; [exact Hnd|]. split.
  { intros pre i post Hh.
    destruct (Hpre (pre ++ [EvRun i]) post) as (m' & Hok' & Hm').
    { rewrite Hh, <- app_assoc. reflexivity. }
    destruct Hok' as (Hnd' & _ & _ & _ & Hrs' & _). rewrite Hm' in Hnd', Hrs'.
    split.
    - specialize (Hrs' i). rewrite ran_snoc_eq, !in_app_iff in Hrs'.
      destruct Hrs' as [H|[H|[]]]; [right; left; reflexivity|exact H|discriminate].
    - rewrite ran_snoc_eq in Hnd'. apply NoDup_app in Hnd' as (_ & Hdis & _).
      intros Hin. apply (Hdis i); [apply list_elem_of_In; exact Hin|].
      apply list_elem_of_singleton. reflexivity. }
  split.
  { intros pre i post Hh.
    destruct (Hpre (pre ++ [EvCollect i]) post) as (m' & Hok' & Hm').
    { rewrite Hh, <- app_assoc. reflexivity. }
    destruct Hok' as (_ & _ & _ & Hcol' & _). rewrite Hm' in Hcol'.
    specialize (Hcol' i). rewrite ran_snoc_eq, app_nil_r in Hcol'.
    apply Hcol'. apply in_app_iff. right. left. reflexivity. }
  intros vs Hdone i Hi. rewrite Hdone in Hpc. apply Hcol, Hpc.
  pose proof (inv_exec callables args kwargs sched _ _ Hinv0 Hex) as (Hlen & _).
  rewrite Hlen. exact Hi.
Qed.

Lemma each_callable_runs_at_most_once_witness :
  exists m,
    exec [Main; Main; Worker 1; Main; Worker 0; Main; Main; Main]
         (initial [returns42; succ] (Some [[]; [PyInt 1]]) None) = Some m
    /\ NoDup (ran (history m))
    /\ (forall pre i post, history m = pre ++ EvRun i :: post ->
          In (EvStart i) pre /\ ~ In i (ran pre))
    /\ (forall pre i post, history m = pre ++ EvCollect i :: post -> In i (ran pre))
    /\ (forall vs, main m = Done (Returns vs) ->
          forall i, i < length (construct [returns42; succ] (Some [[]; [PyInt 1]]) None) ->
            In i (ran (history m))).
Proof.
  eexists. split; [reflexivity|].
  apply (each_callable_runs_at_most_once [returns42; succ] (Some [[]; [PyInt 1]]) None
           [Main; Main; Worker 1; Main; Worker 0; Main; Main; Main]).
  reflexivity.
Defined.

(** ** [Link]: which identifiers are accepted *)

Module LinkFacts.
Import links.

Lemma in_class_hex c : in_class [Digit; Range "a" "f"] c = lower_hex c.
Proof. unfold in_class, lower_hex, existsb, in_item. rewrite orb_false_r. reflexivity. Qed.

(** Running the pattern on a string of unknown length: the string is
    taken apart character by character, following the tests the matcher
    makes. *)
Ltac follow_match H :=
  repeat (cbn -[in_class Ascii.eqb] in H;
          match type of H with
          | context [match ?s with EmptyString => _ | String _ _ => _ end] =>
              is_var s; destruct s
          | context [if in_class ?i ?c then _ else _] =>
              let E := fresh "Hc" in destruct (in_class i c) eqn:E
          | context [if Ascii.eqb ?a ?c then _ else _] =>
              let E := fresh "Hd" in destruct (Ascii.eqb a c) eqn:E
          | None = Some _ => discriminate H
          end).

Ltac tests_to_facts :=
  repeat match goal with
         | H : in_class _ _ = true |- _ => rewrite in_class_hex in H
         | H : Ascii.eqb _ _ = true |- _ => apply Ascii.eqb_eq in H; subst
         end.

Ltac canonical_by_tests :=
  tests_to_facts;
  unfold canonical_guid, canonical_chars; cbn -[lower_hex];
  repeat match goal with
         | H : lower_hex _ = true |- _ => rewrite H; clear H
         end;
  reflexivity.

Lemma matched_is_accepted s cur :
  re_match _guid_pattern s = Some cur -> accepted s.
Proof.
  unfold re_match, _guid_pattern, hex. intros H.
  follow_match H.
  - left. canonical_by_tests.
  - right. tests_to_facts.
    match goal with
    | |- exists s', ?s = _ /\ _ =>
        let l := eval cbv in (string_of_list_ascii (removelast (list_ascii_of_string s))) in
        exists l
    end.
    split; [reflexivity|canonical_by_tests].
Qed.

Lemma canonical_is_matched s r :
  canonical_guid s = true -> r = EmptyString \/ r = newline ->
  re_match _guid_pattern (s ++ r) = Some (36, r).
Proof.
  intros H Hr.
  do 37 (destruct s as [|? s];
         [try (unfold canonical_guid, canonical_chars in H;
               cbn -[lower_hex] in H; discriminate H)|]).
  2: { unfold canonical_guid, canonical_chars in H.
       cbn -[lower_hex Nat.eqb] in H. simpl Nat.eqb in H. discriminate H. }
  unfold canonical_guid, canonical_chars in H. cbn -[lower_hex] in H.
  repeat match goal with
         | H : _ && _ = true |- _ => apply andb_true_iff in H; destruct H
         end.
  repeat match goal with
         | H : bool_decide _ = true |- _ => apply bool_decide_eq_true in H; injection H as ->
         | H : lower_hex _ = true |- _ => rewrite <- in_class_hex in H
         end.
  unfold re_match, _guid_pattern, hex. cbv [String.append]. cbn -[in_class].
  repeat match goal with
         | H : in_class _ _ = true |- _ => rewrite H; clear H; cbn -[in_class]
         end.
  destruct Hr as [-> | ->]; reflexivity.
Qed.

Lemma append_empty_r (s : string) : (s ++ EmptyString)%string = s.
Proof.
  induction s as [|c s IH]; [reflexivity|].
  change (String c (s ++ EmptyString)%string = String c s). rewrite IH. reflexivity.
Qed.

Lemma accepted_is_matched s : accepted s -> is_Some (re_match _guid_pattern s).
Proof.
  intros [H|(s' & -> & H)].
  - exists (36, EmptyString).
    rewrite <- (append_empty_r s) at 1.
    apply canonical_is_matched; [exact H|left; reflexivity].
  - exists (36, newline). apply canonical_is_matched; [exact H|right; reflexivity].
Qed.

Lemma unaccepted_is_refused node_guid node :
  ~ accepted node_guid ->
  validate_node node_guid node = Raises (ValueError (invalid_guid_message node node_guid)).
Proof.
  intros Hno. unfold validate_node.
  destruct (re_match _guid_pattern node_guid) as [cur|] eqn:H; [|reflexivity].
  destruct Hno. exact (matched_is_accepted _ _ H).
Qed.

End LinkFacts.

(** [validate_node] accepts a string exactly when it is a canonical
    identifier (36 characters: groups of 8, 4, 4, 4 and 12 lowercase
    hexadecimal digits separated by hyphens) or such an identifier
    followed by one line feed; whatever [node] is. *)
Theorem validate_node_accepts (node_guid node : string) :
  links.validate_node node_guid node = Returns tt <-> links.accepted node_guid.
Proof.
  unfold links.validate_node. split.
  - destruct (links.re_match links._guid_pattern node_guid) as [cur|] eqn:H; [|discriminate].
    intros _. exact (LinkFacts.matched_is_accepted _ _ H).
  - intros H. destruct (LinkFacts.accepted_is_matched _ H) as [cur ->]. reflexivity.
Qed.

(** Every other string is refused with a [ValueError] whose message
    names the node and quotes the string as received. *)
Theorem validate_node_rejects (node_guid node : string) :
  ~ links.accepted node_guid ->
  links.validate_node node_guid node
  = Raises (links.ValueError (links.invalid_guid_message node node_guid)).
Proof. apply LinkFacts.unaccepted_is_refused. Qed.

Lemma validate_node_rejects_witness :
  links.validate_node "0123ABCD-0000-0000-0000-000000000000" "tail"
  = Raises (links.ValueError
              (links.invalid_guid_message "tail" "0123ABCD-0000-0000-0000-000000000000")).
Proof.
  apply (validate_node_rejects "0123ABCD-0000-0000-0000-000000000000" "tail").
  intros H. apply LinkFacts.accepted_is_matched in H. destruct H as [cur H]. discriminate H.
Defined.

(** Among the strings modelled here, of code points below 256 where
    [\d] is exactly [0-9], an accepted identifier is made of lowercase
    hexadecimal digits, hyphens and possibly a final line feed only:
    uppercase digits, braces and blanks are never accepted. *)
Theorem validate_node_accepts_lowercase_only (node_guid node : string) :
  links.validate_node node_guid node = Returns tt ->
  Forall (fun c => links.lower_hex c = true \/ c = "-"%char \/ c = "010"%char)
         (list_ascii_of_string node_guid).
Proof.
  unfold links.validate_node.
  destruct (links.re_match links._guid_pattern node_guid) as [cur|] eqn:H; [|discriminate].
  intros _. revert H. unfold links.re_match, links._guid_pattern, links.hex. intros H.
  LinkFacts.follow_match H; LinkFacts.tests_to_facts; simpl;
    repeat (apply Forall_cons; split; [auto|]); apply Forall_nil_2.
Qed.

Lemma validate_node_accepts_lowercase_only_witness :
  Forall (fun c => links.lower_hex c = true \/ c = "-"%char \/ c = "010"%char)
         (list_ascii_of_string "0123abcd-4567-89ef-0000-aaaaaaaaaaaa").
Proof.
  apply (validate_node_accepts_lowercase_only "0123abcd-4567-89ef-0000-aaaaaaaaaaaa" "head").
  reflexivity.
Defined.

(** ** [Link]: the constructor *)

(** The constructor returns a link exactly when [head] and [tail] are
    both accepted, and the link then holds the four arguments as given,
    [description] being the empty string when omitted; [edge_type] and
    [description] are not looked at. *)
Theorem Link_constructed_iff
    (head tail edge_type : string) (description : option string) (l : links.Link) :
  links.new head tail edge_type description = Returns l
  <-> links.accepted head /\ links.accepted tail
      /\ l = links.mkLink head tail edge_type (default EmptyString description).
Proof.
  unfold links.new, links.__post_init__. cbn [links.head links.tail].
  unfold links.validate_node. split.
  - destruct (links.re_match links._guid_pattern head) as [c1|] eqn:H1; [|discriminate].
    destruct (links.re_match links._guid_pattern tail) as [c2|] eqn:H2; [|discriminate].
    intros H. injection H as <-.
    split; [exact (LinkFacts.matched_is_accepted _ _ H1)|].
    split; [exact (LinkFacts.matched_is_accepted _ _ H2)|reflexivity].
  - intros (H1 & H2 & ->).
    destruct (LinkFacts.accepted_is_matched _ H1) as [c1 ->].
    destruct (LinkFacts.accepted_is_matched _ H2) as [c2 ->]. reflexivity.
Qed.

(** [head] is validated before [tail]: when [head] is not accepted the
    [ValueError] is the one about [head], whatever [tail] is; the error
    is about [tail] only when [head] is accepted. *)
Theorem Link_head_validated_first
    (head tail edge_type : string) (description : option string) :
  (~ links.accepted head ->
   links.new head tail edge_type description
   = Raises (links.ValueError (links.invalid_guid_message "head" head)))
  /\ (links.accepted head -> ~ links.accepted tail ->
      links.new head tail edge_type description
      = Raises (links.ValueError (links.invalid_guid_message "tail" tail))).
Proof.
  unfold links.new, links.__post_init__. cbn [links.head links.tail]. split.
  - intros H. rewrite (LinkFacts.unaccepted_is_refused head "head" H). reflexivity.
  - intros H1 H2. rewrite (LinkFacts.unaccepted_is_refused tail "tail" H2).
    unfold links.validate_node.
    destruct (LinkFacts.accepted_is_matched _ H1) as [c1 ->]. reflexivity.
Qed.

Lemma Link_head_validated_first_witness :
  links.new "not-a-guid" "also wrong" "edge" None
  = Raises (links.ValueError (links.invalid_guid_message "head" "not-a-guid"))
  /\ links.new "0123abcd-4567-89ef-0000-aaaaaaaaaaaa" "also wrong" "edge" None
     = Raises (links.ValueError (links.invalid_guid_message "tail" "also wrong")).
Proof.
  split.
  - apply (proj1 (Link_head_validated_first "not-a-guid" "also wrong" "edge" None)).
    intros H. apply LinkFacts.accepted_is_matched in H. destruct H as [cur H]. discriminate H.
  - apply (proj2 (Link_head_validated_first "0123abcd-4567-89ef-0000-aaaaaaaaaaaa"
                    "also wrong" "edge" None)).
    + left. reflexivity.
    + intros H. apply LinkFacts.accepted_is_matched in H. destruct H as [cur H].
      discriminate H.
Defined.

(** ** A failure ends the collection *)

Lemma failure_ok_step callables args kwargs c m m' :
  inv callables args kwargs m ->
  failure_ok callables args kwargs m ->
  step c m = Some m' ->
  failure_ok callables args kwargs m'.
Proof.
  intros Hinv Hok Hs e Hdone.
  destruct c as [|j]; simpl in Hs.
  - destruct (main m) as [i|i acc|r] eqn:Hm; [| |discriminate].
    + destruct (threads m !! i) as [t|] eqn:Ht.
      * pose proof (inv_starting_fresh _ _ _ m i t Hinv Hm Ht) as Hl.
        unfold start in Hs. rewrite Hl in Hs. injection Hs as <-. discriminate.
      * injection Hs as <-. discriminate.
    + destruct Hinv as (Hlen & _ & Hpc). rewrite Hm in Hpc.
      destruct Hpc as (Hi & Hev & _ & Hts).
      destruct (threads m !! i) as [t|] eqn:Ht.
      * assert (Hin : i < length (construct callables args kwargs)).
        { apply lookup_lt_Some in Ht. lia. }
        destruct (lookup_lt_is_Some_2 _ i Hin) as [t0 Ht0].
        destruct (Hts i t0 Ht0 (Nat.le_refl i)) as (t' & Ht' & Hst).
        rewrite Ht in Ht'. injection Ht' as <-.
        pose proof (construct_fresh callables args kwargs i t0 Ht0) as Hf.
        destruct Hst as [-> | ->].
        { unfold output, join in Hs.
          rewrite (proj2 (start_NotStarted t0 Hf)) in Hs. discriminate. }
        rewrite output_finished in Hs by reflexivity.
        rewrite construct_lookup in Ht0.
        destruct (entries callables args kwargs !! i) as [[[c a] k]|] eqn:He;
          [|discriminate].
        simpl in Ht0. injection Ht0 as <-. rewrite slot_ending in Hs.
        destruct (slot_result c a k) as [v|e'] eqn:Hr; injection Hs as <-; [discriminate|].
        injection Hdone as <-. exists i, c, a, k.
        split; [exact He|]. split; [exact Hr|].
        cbn [history]. rewrite main_events_snoc, Hev, seq_snoc_fmap.
        cbn [is_main_event]. rewrite <- app_assoc. reflexivity.
      * injection Hs as <-. discriminate.
  - destruct (threads m !! j) as [t|]; [|discriminate].
    destruct (life t); try discriminate. injection Hs as <-.
    cbn [main history] in *. rewrite main_events_snoc. cbn [is_main_event].
    rewrite app_nil_r. apply Hok. exact Hdone.
Qed.

Lemma failure_ok_exec callables args kwargs sched : forall m m',
  inv callables args kwargs m ->
  failure_ok callables args kwargs m ->
  exec sched m = Some m' ->
  failure_ok callables args kwargs m'.
Proof.
  induction sched as [|c sched IH]; intros m m' Hinv Hok Hex; simpl in Hex.
  - injection Hex as <-. exact Hok.
  - destruct (step c m) as [m1|] eqn:Hs; [|discriminate].
    apply (IH m1 m'); [eapply inv_step; eassumption| |exact Hex].
    eapply failure_ok_step; eassumption.
Qed.

(** When a call raises, in whatever interleaving, it has started every
    handle, has collected the handles up to the slot whose failure it
    raises and no handle after it: the later workers were started, their
    results are never collected. *)
Theorem failure_stops_collection
    (callables : list Callable) (args : option (list (list pyobj)))
    (kwargs : option (list kwdict)) (sched : list choice) (m : machine) (e : pyexc) :
  exec sched (initial callables args kwargs) = Some m ->
  main m = Done (Raises e) ->
  exists j c a k,
    callables !! j = Some c
    /\ args_or_default callables args !! j = Some a
    /\ kwargs_or_default callables kwargs !! j = Some k
    /\ c a k = Raises e
    /\ main_events (history m)
       = (EvStart <$> seq 0 (length (construct callables args kwargs)))
           ++ (EvCollect <$> seq 0 (S j))
    /\ (forall i, In (EvStart i) (history m)
                  <-> i < length (construct callables args kwargs))
    /\ (forall i, In (EvCollect i) (history m) <-> i <= j).
Proof.
  intros Hex Hdone.
  assert (Hok0 : failure_ok callables args kwargs (initial callables args kwargs))
    by (intros e' H; discriminate).
  destruct (failure_ok_exec _ _ _ sched _ _ (inv_initial callables args kwargs) Hok0 Hex
              e Hdone) as (j & c & a & k & Hj & Hr & Hev).
  apply entries_lookup in Hj as (H1 & H2 & H3).
  apply slot_result_raises_inv in Hr as (Hr & _).
  exists j, c, a, k. repeat split; try assumption.
  - intros Hin. apply (main_event_in _ (EvStart i) eq_refl) in Hin. rewrite Hev in Hin.
    apply start_in_shape in Hin. exact Hin.
  - intros Hi.
    assert (Hin : In (EvStart i) (main_events (history m))).
    { rewrite Hev. apply in_app_iff. left. apply list_elem_of_In, list_elem_of_fmap.
      exists i. split; [reflexivity|]. apply elem_of_seq. lia. }
    apply List.filter_In in Hin. apply Hin.
  - intros Hin. apply (main_event_in _ (EvCollect i) eq_refl) in Hin. rewrite Hev in Hin.
    apply collect_in_shape in Hin. lia.
  - intros Hi.
    assert (Hin : In (EvCollect i) (main_events (history m))).
    { rewrite Hev. apply in_app_iff. right. apply list_elem_of_In, list_elem_of_fmap.
      exists i. split; [reflexivity|]. apply elem_of_seq. lia. }
    apply List.filter_In in Hin. apply Hin.
Qed.

Lemma failure_stops_collection_witness :
  exists m,
    exec [Main; Main; Main; Worker 0; Main; Main]
         (initial [divByZero; returns42; succ] None None) = Some m
    /\ history m = [EvStart 0; EvStart 1; EvStart 2; EvRun 0; EvCollect 0]
    /\ exists j c a k,
         [divByZero; returns42; succ] !! j = Some c
         /\ [([] : list pyobj); []; []] !! j = Some a
         /\ [([] : kwdict); []; []] !! j = Some k
         /\ c a k = Raises ZeroDivisionError
         /\ main_events (history m) = (EvStart <$> seq 0 3) ++ (EvCollect <$> seq 0 (S j))
         /\ (forall i, In (EvStart i) (history m) <-> i < 3)
         /\ (forall i, In (EvCollect i) (history m) <-> i <= j).
Proof.
  eexists. split; [reflexivity|]. split; [reflexivity|].
  apply (failure_stops_collection [divByZero; returns42; succ] None None
           [Main; Main; Main; Worker 0; Main; Main]); reflexivity.
Defined.
